(** * BigQueryValueSetManager: persisting value sets to BigQuery

    A shallow embedding of
    [google-fhir-views/google/fhir/views/bigquery_value_set_manager.py]
    and the properties its specification states about it.

    The Python code talks to three collaborators: the BigQuery client,
    a value set expander and the statement builder of
    [google.fhir.r4.terminology.value_set_tables].  Their calls are
    effects; here they act on an explicit [State] that holds the
    manager object, the warehouse and a trace of every call made. *)

From Stdlib Require Import ZArith Ascii.
From stdpp Require Import gmap strings list fin_maps.

Open Scope string_scope.
Open Scope list_scope.

(** ** Data *)

(** [bigquery.table.TableReference]: project, dataset and table ids. *)
Record TableReference := {
  ref_project : string;
  dataset_id : string;
  table_id : string
}.

(** [bigquery.SchemaField(name, field_type, mode=...)]. *)
Inductive Mode := REQUIRED | NULLABLE.

Record SchemaField := {
  field_name : string;
  field_type : string;
  field_mode : Mode
}.

(** [bigquery.Table]: a reference, a schema and the clustering fields
    ([None] until assigned). *)
Record Table := {
  reference : TableReference;
  schema : list SchemaField;
  clustering_fields : option (list string)
}.

(** What the manager keeps as its table: a [bigquery.table.Table] or a
    [bigquery.table.TableReference]. *)
Inductive TableLike :=
  | IsTable (t : Table)
  | IsReference (r : TableReference).

(** What [__init__] accepts for [value_set_codes_table]:
    [Union[bigquery.table.Table, bigquery.table.TableReference, str]]. *)
Inductive TableArg :=
  | Resolved (x : TableLike)
  | Named (s : string).

(** [bigquery.client.Client]: the handle knows its default project; what
    the warehouse stores lives in the [State]. *)
Record Client := { project : string }.

(** The result of [sqlalchemy.table(table_name, *columns)]. *)
Record TableClause := {
  table_name : string;
  columns : list string
}.

(** Modelled from the spec: the [value_set_pb2.ValueSet] proto, which the
    source imports but does not define.  Section 3: identified by [uri]
    and an optional [version]; holds the ordered [(system, code)] pairs
    of its expansion. *)
Record ValueSet := {
  uri : string;
  version : option string;
  codes : list (string * string)
}.

(** Modelled from the spec: the unit the core persists (section 3),
    [{valueset_uri, valueset_version (nullable), system, code}]. *)
Record CodeRow := {
  valueseturi : string;
  valuesetversion : option string;
  system : string;
  code : string
}.

(** Modelled from the spec: what
    [value_set_tables.valueset_codes_insert_statement_for] yields, one
    per batch (section 4.2, steps 5 and 6): a multi-row insert of the
    staged rows into [into], as a set difference against the rows the
    table holds. *)
Record Insert := {
  into : TableClause;
  staged : list CodeRow
}.

#[global] Instance Mode_eq_dec : EqDecision Mode.
Proof. solve_decision. Defined.
#[global] Instance TableReference_eq_dec : EqDecision TableReference.
Proof. solve_decision. Defined.
#[global] Instance SchemaField_eq_dec : EqDecision SchemaField.
Proof. solve_decision. Defined.
#[global] Instance Table_eq_dec : EqDecision Table.
Proof. solve_decision. Defined.
#[global] Instance TableClause_eq_dec : EqDecision TableClause.
Proof. solve_decision. Defined.
#[global] Instance CodeRow_eq_dec : EqDecision CodeRow.
Proof. solve_decision. Defined.
#[global] Instance Insert_eq_dec : EqDecision Insert.
Proof. solve_decision. Defined.

(** ** Exceptions *)

Inductive Error :=
  | TypeError (msg : string)
  | ValueError (msg : string)
  | AttributeError (name : string)
  | ExpansionError (url : string)
  | WarehouseError (what : string).

Inductive Result (A : Type) :=
  | Ok (a : A)
  | Raise (e : Error).
Arguments Ok {A} a.
Arguments Raise {A} e.

(** ** The world the manager runs in *)

(** Every call that leaves the manager, in the order it is made. *)
Inductive Event :=
  | EvCreateTable (t : Table)                    (* client.create_table(t, exists_ok=True) *)
  | EvQuery (q : Insert)                         (* client.query(query_string) *)
  | EvResult (q : Insert)                        (* <job>.result() *)
  | EvExpand (url : string)                      (* expander.expand_value_set_url(url) *)
  | EvExpandUsingService (url service : string). (* expander.expand_value_set_url_using_service(url, service) *)

#[global] Instance Event_eq_dec : EqDecision Event.
Proof. solve_decision. Defined.

(** A table as the warehouse stores it, under its name. *)
Record StoredTable := {
  st_schema : list SchemaField;
  st_clustering_fields : option (list string);
  st_rows : list CodeRow
}.

(** The manager object ([self]). *)
Record BigQueryValueSetManager := {
  _client : Client;
  _value_set_codes_table : TableLike
}.

(** [this] is the manager object; [tables] the warehouse, keyed by
    [project.dataset.table]; [served] counts the requests the warehouse
    has received and [outage n] tells whether it fails request number
    [n]; [trace] lists the calls made so far, oldest first. *)
Record State := {
  this : BigQueryValueSetManager;
  tables : gmap string StoredTable;
  served : nat;
  outage : nat → bool;
  trace : list Event
}.

(** ** Computations: state and exceptions *)

Definition M (A : Type) : Type := State → Result A * State.

Definition ret {A} (a : A) : M A := fun st => (Ok a, st).

Definition raise {A} (e : Error) : M A := fun st => (Raise e, st).

Definition bind {A B} (m : M A) (k : A → M B) : M B :=
  fun st =>
    match m st with
    | (Ok a, st') => k a st'
    | (Raise e, st') => (Raise e, st')
    end.

Notation "x <- m ;; k" := (bind m (fun x => k))
  (at level 100, m at next level, right associativity).
Notation "m ;; k" := (bind m (fun _ => k))
  (at level 100, right associativity).

Definition get_self : M BigQueryValueSetManager := fun st => (Ok (this st), st).

Definition emit (e : Event) : M unit :=
  fun st =>
    (Ok tt, {| this := this st; tables := tables st; served := served st;
               outage := outage st; trace := trace st ++ [e] |}).

(** One request to the warehouse: it is counted, and fails when the
    warehouse is out at that request. *)
Definition request (what : string) : M unit :=
  fun st =>
    let st' := {| this := this st; tables := tables st; served := S (served st);
                  outage := outage st; trace := trace st |} in
    if outage st (served st) then (Raise (WarehouseError what), st') else (Ok tt, st').

Definition lookup_table (name : string) : M (option StoredTable) :=
  fun st => (Ok (tables st !! name), st).

Definition store_table (name : string) (t : StoredTable) : M unit :=
  fun st =>
    (Ok tt, {| this := this st; tables := <[name := t]> (tables st); served := served st;
               outage := outage st; trace := trace st |}).

(** ** Iterables *)

(** A Python iterable consumed once: it is exhausted ([Stop]), has its
    next item at hand ([Yield]), or must first run some code to find out
    ([Step]), as a generator does between two [yield]s.  Being
    inductive, it is finite. *)
#[warnings="-register-all"]
Inductive Gen (A : Type) :=
  | Stop
  | Yield (a : A) (rest : Gen A)
  | Step (m : State → Result (Gen A) * State).
Arguments Stop {A}.
Arguments Yield {A} a rest.
Arguments Step {A} m.

(** [iter(xs)] for a list. *)
Fixpoint iter {A} (xs : list A) : Gen A :=
  match xs with
  | [] => Stop
  | x :: xs' => Yield x (iter xs')
  end.

(** The generator expression [(f(x) for x in xs)]: nothing runs until an
    item is asked for. *)
Fixpoint genexpr {A B} (f : A → M B) (xs : list A) : Gen B :=
  match xs with
  | [] => Stop
  | x :: xs' => Step (b <- f x ;; ret (Yield b (genexpr f xs')))
  end.

(** [for a in g: body(a)]. *)
Fixpoint for_each {A} (g : Gen A) (body : A → M unit) (st : State) : Result unit * State :=
  match g with
  | Stop => (Ok tt, st)
  | Yield a rest =>
      match body a st with
      | (Ok _, st') => for_each rest body st'
      | (Raise e, st') => (Raise e, st')
      end
  | Step m =>
      match m st with
      | (Ok g', st') => for_each g' body st'
      | (Raise e, st') => (Raise e, st')
      end
  end.

(** ** The BigQuery client *)

(** [f'{project}.{dataset_id}.{table_id}'], the name a table goes by in
    a statement and in the warehouse. *)
Definition full_name (r : TableReference) : string :=
  (ref_project r ++ "." ++ dataset_id r ++ "." ++ table_id r)%string.

(** The reference of what [bigquery.Table(...)] is built from. *)
Definition to_reference (x : TableLike) : TableReference :=
  match x with
  | IsTable t => reference t
  | IsReference r => r
  end.

(** [bigquery.Table(table_ref, schema=schema)]; no clustering yet. *)
Definition new_Table (table_ref : TableLike) (schema : list SchemaField) : Table :=
  {| reference := to_reference table_ref; schema := schema; clustering_fields := None |}.

(** [table.clustering_fields = fields]. *)
Definition set_clustering_fields (table : Table) (fields : list string) : Table :=
  {| reference := reference table; schema := schema table; clustering_fields := Some fields |}.

(** [client.create_table(table, exists_ok=...)]: one request; a table of
    that name already there is a conflict, which [exists_ok] turns into
    returning the table as it is stored (the client fetches it by the
    reference asked for). *)
Definition create_table (table : Table) (exists_ok : bool) : M Table :=
  emit (EvCreateTable table) ;;
  request "create_table" ;;
  existing <- lookup_table (full_name (reference table)) ;;
  match existing with
  | Some stored =>
      if exists_ok
      then ret {| reference := reference table; schema := st_schema stored;
                  clustering_fields := st_clustering_fields stored |}
      else raise (WarehouseError "Conflict")
  | None =>
      store_table (full_name (reference table))
        {| st_schema := schema table; st_clustering_fields := clustering_fields table;
           st_rows := [] |} ;;
      ret table
  end.

(** Modelled from the spec: what running one statement of
    [valueset_codes_insert_statement_for] does to the rows of its table
    (section 4.2, step 6): the staged rows, duplicates among them
    collapsed, less the rows the table already holds, are appended;
    nothing the table holds is rewritten. *)
Definition new_rows (existing staged : list CodeRow) : list CodeRow :=
  list_difference (remove_dups staged) existing.

Definition run_insert (q : Insert) : M unit :=
  target <- lookup_table (table_name (into q)) ;;
  match target with
  | None => raise (WarehouseError "Not found")
  | Some stored =>
      store_table (table_name (into q))
        {| st_schema := st_schema stored;
           st_clustering_fields := st_clustering_fields stored;
           st_rows := st_rows stored ++ new_rows (st_rows stored) (staged q) |}
  end.

(** [client.query(query_string)] hands back a job; whether the job
    went through shows when it is waited for. *)
Record QueryJob := { job_query : Insert }.

Definition query (query_string : Insert) : M QueryJob :=
  emit (EvQuery query_string) ;;
  ret {| job_query := query_string |}.

(** [job.result()] waits for the job: one request; the statement has
    taken effect when it returns. *)
Definition result (job : QueryJob) : M unit :=
  emit (EvResult (job_query job)) ;;
  request "query" ;;
  run_insert (job_query job).

(** ** Expanders *)

(** The two kinds of [expander]: a
    [terminology_service_client.TerminologyServiceClient], with both
    methods, or a [value_sets.ValueSetResolver]. *)
Inductive Expander :=
  | TerminologyServiceClient
      (expand : string → Result ValueSet)
      (expand_using_service : string → string → Result ValueSet)
  | ValueSetResolver (expand : string → Result ValueSet).

(** [isinstance(expander, terminology_service_client.TerminologyServiceClient)]. *)
Definition is_TerminologyServiceClient (expander : Expander) : bool :=
  match expander with
  | TerminologyServiceClient _ _ => true
  | ValueSetResolver _ => false
  end.

Definition lift {A} (r : Result A) : M A := fun st => (r, st).

Definition expand_value_set_url (expander : Expander) (url : string) : M ValueSet :=
  emit (EvExpand url) ;;
  match expander with
  | TerminologyServiceClient expand _ => lift (expand url)
  | ValueSetResolver expand => lift (expand url)
  end.

Definition expand_value_set_url_using_service
    (expander : Expander) (url service : string) : M ValueSet :=
  match expander with
  | TerminologyServiceClient _ expand_using_service =>
      emit (EvExpandUsingService url service) ;;
      lift (expand_using_service url service)
  | ValueSetResolver _ => raise (AttributeError "expand_value_set_url_using_service")
  end.

(** ** The statement builder *)

(** Modelled from the spec: one row per [(system, code)] of the
    expansion, tagged with the value set's uri and version (section 4.2,
    step 3). *)
Definition code_rows (value_set : ValueSet) : list CodeRow :=
  map (fun pair => {| valueseturi := uri value_set; valuesetversion := version value_set;
                      system := pair.1; code := pair.2 |})
      (codes value_set).

(** Modelled from the spec: rows are added to the batch at hand in
    arrival order; a batch that reaches [size] rows is yielded at once
    (section 4.2, step 4). *)
Fixpoint fill (size : nat) (table : TableClause) (rows batch : list CodeRow)
    (next : list CodeRow → Gen Insert) : Gen Insert :=
  match rows with
  | [] => next batch
  | row :: rows' =>
      let batch' := batch ++ [row] in
      if decide (length batch' < size) then fill size table rows' batch' next
      else Yield {| into := table; staged := batch' |} (fill size table rows' [] next)
  end.

(** Modelled from the spec: the value sets are traversed once and
    lazily (section 4.2, step 2): the next one is asked for only when
    the rows of the previous ones have gone into batches; a last,
    shorter batch is yielded when they are exhausted. *)
Fixpoint batches (size : nat) (table : TableClause) (value_sets : Gen ValueSet)
    (batch : list CodeRow) : Gen Insert :=
  match value_sets with
  | Stop =>
      match batch with
      | [] => Stop
      | _ => Yield {| into := table; staged := batch |} Stop
      end
  | Yield value_set rest =>
      fill size table (code_rows value_set) batch (batches size table rest)
  | Step m =>
      Step (fun st =>
        match m st with
        | (Ok value_sets', st') => (Ok (batches size table value_sets' batch), st')
        | (Raise e, st') => (Raise e, st')
        end)
  end.

(** Modelled from the spec:
    [value_set_tables.valueset_codes_insert_statement_for], which the
    source calls but does not define (section 4.2, steps 2 to 6).  The
    spec does not say what a [batch_size] below one does; no batch could
    hold a row, so none is yielded. *)
Definition valueset_codes_insert_statement_for
    (expanded_value_sets : Gen ValueSet) (table : TableClause) (batch_size : Z)
    : Gen Insert :=
  if decide (0 < batch_size)%Z
  then batches (Z.to_nat batch_size) table expanded_value_sets []
  else Stop.

(** ** The manager *)

Section Manager.

(** [bigquery.table.TableReference.from_string(table_id, default_project=...)],
    which raises on a malformed id. *)
Variable from_string : string → string → Result TableReference.

Definition __init__ (client : Client) (value_set_codes_table : TableArg)
    : Result BigQueryValueSetManager :=
  match value_set_codes_table with
  | Named s =>
      match from_string s (project client) with
      | Ok r => Ok {| _client := client; _value_set_codes_table := IsReference r |}
      | Raise e => Raise e
      end
  | Resolved x => Ok {| _client := client; _value_set_codes_table := x |}
  end.

End Manager.

(** The [value_set_codes_table] property. *)
Definition value_set_codes_table (self : BigQueryValueSetManager) : TableLike :=
  _value_set_codes_table self.

Definition valueset_codes_schema : list SchemaField :=
  [ {| field_name := "valueseturi"; field_type := "STRING"; field_mode := REQUIRED |};
    {| field_name := "valuesetversion"; field_type := "STRING"; field_mode := NULLABLE |};
    {| field_name := "system"; field_type := "STRING"; field_mode := REQUIRED |};
    {| field_name := "code"; field_type := "STRING"; field_mode := REQUIRED |} ].

Definition _create_valueset_codes_table_if_not_exists : M Table :=
  self <- get_self ;;
  let schema := valueset_codes_schema in
  let table := new_Table (_value_set_codes_table self) schema in
  let table := set_clustering_fields table ["valueseturi"; "code"] in
  create_table table true.

Definition _bq_table_to_sqlalchemy_table (bq_table : Table) : TableClause :=
  let table_name := full_name (reference bq_table) in
  let columns := map field_name (schema bq_table) in
  {| table_name := table_name; columns := columns |}.

Definition default_batch_size : Z := 500.

(** The statement rendered with literal binds stands for itself: the
    text is sqlalchemy's, what reaches the warehouse is the statement. *)
Definition materialize_value_sets (value_set_protos : Gen ValueSet) (batch_size : Z)
    : M unit :=
  bq_table <- _create_valueset_codes_table_if_not_exists ;;
  let sa_table := _bq_table_to_sqlalchemy_table bq_table in
  let queries :=
    valueset_codes_insert_statement_for value_set_protos sa_table batch_size in
  for_each queries (fun query_string =>
    job <- query query_string ;;
    result job).

Definition materialize_value_set_expansion
    (urls : list string) (expander : Expander)
    (terminology_service_url : option string) (batch_size : Z) : M unit :=
  if bool_decide (terminology_service_url ≠ None)
     && negb (is_TerminologyServiceClient expander)
  then raise (TypeError
    "`terminology_service_url` can only be given if `expander` is a TerminologyServiceClient")
  else
    let expanded_value_sets :=
      match terminology_service_url with
      | Some service =>
          if is_TerminologyServiceClient expander
          then genexpr (fun url => expand_value_set_url_using_service expander url service) urls
          else genexpr (fun url => expand_value_set_url expander url) urls
      | None => genexpr (fun url => expand_value_set_url expander url) urls
      end in
    materialize_value_sets expanded_value_sets batch_size.

(** ** Vocabulary of the properties *)

(** The loop body of [materialize_value_sets]. *)
Abbreviation run_query :=
  (fun query_string : Insert => job <- query query_string ;; result job).

(** The calls made between two states. *)
Definition since (st st' : State) : list Event :=
  drop (length (trace st)) (trace st').

(** The statements handed to [client.query] among some calls. *)
Definition inserts_issued (events : list Event) : list Insert :=
  omap (fun e => match e with EvQuery q => Some q | _ => None end) events.

(** The calls to the expander among some calls. *)
Definition is_expansion (e : Event) : bool :=
  match e with
  | EvExpand _ | EvExpandUsingService _ _ => true
  | _ => false
  end.

Definition expansions (events : list Event) : list Event :=
  filter (fun e => is_expansion e = true) events.

Definition is_create (e : Event) : bool :=
  match e with
  | EvCreateTable _ => true
  | _ => false
  end.

(** The rows a table of the warehouse holds (none if it is not there). *)
Definition rows_at (name : string) (st : State) : list CodeRow :=
  match tables st !! name with
  | Some stored => st_rows stored
  | None => []
  end.

(** The name of the manager's table, and its rows. *)
Definition target (st : State) : string :=
  full_name (to_reference (value_set_codes_table (this st))).

Definition table_rows (st : State) : list CodeRow := rows_at (target st) st.

(** The table [_create_valueset_codes_table_if_not_exists] asks for. *)
Definition wanted_table (self : BigQueryValueSetManager) : Table :=
  {| reference := to_reference (value_set_codes_table self);
     schema := valueset_codes_schema;
     clustering_fields := Some ["valueseturi"; "code"] |}.

(** All rows of some value sets, in arrival order. *)
Definition all_rows (value_sets : list ValueSet) : list CodeRow :=
  concat (map code_rows value_sets).

(** The batches a row stream is cut into, given the rows already in the
    batch at hand. *)
Fixpoint chunks (size : nat) (rows batch : list CodeRow) : list (list CodeRow) :=
  match rows with
  | [] => match batch with [] => [] | _ => [batch] end
  | row :: rows' =>
      let batch' := batch ++ [row] in
      if decide (length batch' < size) then chunks size rows' batch'
      else batch' :: chunks size rows' []
  end.

(** How many of the next [count] requests, from request number [from],
    the warehouse serves before it first fails one. *)
Fixpoint uptime (outage : nat → bool) (from count : nat) : nat :=
  match count with
  | 0 => 0
  | S count' => if outage from then 0 else S (uptime outage (S from) count')
  end.

(** The rows of a table after some batches were committed, one after
    the other. *)
Definition commit (rows : list CodeRow) (bs : list (list CodeRow)) : list CodeRow :=
  foldl (fun rows b => rows ++ new_rows rows b) rows bs.

Definition with_rows (stored : StoredTable) (rows : list CodeRow) : StoredTable :=
  {| st_schema := st_schema stored; st_clustering_fields := st_clustering_fields stored;
     st_rows := rows |}.

Definition job_events (table : TableClause) (b : list CodeRow) : list Event :=
  [EvQuery {| into := table; staged := b |}; EvResult {| into := table; staged := b |}].

(** Every [client.query] is followed at once by the [result()] of that
    very job, and no [result()] comes otherwise. *)
Fixpoint sequential (events : list Event) : bool :=
  match events with
  | [] => true
  | EvQuery q :: EvResult q' :: rest => bool_decide (q = q') && sequential rest
  | EvQuery _ :: _ => false
  | EvResult _ :: _ => false
  | _ :: rest => sequential rest
  end.

Definition ceil_div (n d : Z) : Z := ((n + d - 1) / d)%Z.

(** The table as stored once provisioning has gone through: the one
    already there, or a new, empty one. *)
Definition fresh_table : StoredTable :=
  {| st_schema := valueset_codes_schema;
     st_clustering_fields := Some ["valueseturi"; "code"];
     st_rows := [] |}.

Definition provisioned (st : State) : StoredTable :=
  default fresh_table (tables st !! target st).

(** The sqlalchemy table the statements are built on. *)
Definition clause (st : State) : TableClause :=
  {| table_name := target st;
     columns := map field_name (st_schema (provisioned st)) |}.

(** The batches of a list of value sets. *)
Definition batches_of (batch_size : Z) (value_sets : list ValueSet) : list (list CodeRow) :=
  if decide (0 < batch_size)%Z
  then chunks (Z.to_nat batch_size) (all_rows value_sets) []
  else [].

(** The call [materialize_value_set_expansion] makes for one url, and
    the event it leaves, given the service url. *)
Definition expansion_call (expander : Expander) (service_url : option string)
    (url : string) : M ValueSet :=
  match service_url with
  | Some service => expand_value_set_url_using_service expander url service
  | None => expand_value_set_url expander url
  end.

Definition expansion_event (service_url : option string) (url : string) : Event :=
  match service_url with
  | Some service => EvExpandUsingService url service
  | None => EvExpand url
  end.

(** The arguments pass the check of [materialize_value_set_expansion]. *)
Definition valid_arguments (expander : Expander) (service_url : option string) : Prop :=
  service_url ≠ None → is_TerminologyServiceClient expander = true.

(** From [st] to [st'] the manager object and the warehouse's outages
    are the same, and the calls made in between satisfy [P]. *)
Definition evolves (P : list Event → Prop) (st st' : State) : Prop :=
  this st' = this st ∧ outage st' = outage st ∧
  ∃ events, trace st' = trace st ++ events ∧ P events.

(** What the expander answers to a call, and how many rows that call
    brings into the run (none when it raises). *)
Definition answer (expander : Expander) (e : Event) : option (Result ValueSet) :=
  match e, expander with
  | EvExpand url, TerminologyServiceClient expand _ => Some (expand url)
  | EvExpand url, ValueSetResolver expand => Some (expand url)
  | EvExpandUsingService url service, TerminologyServiceClient _ expand_using_service =>
      Some (expand_using_service url service)
  | _, _ => None
  end.

Definition rows_expanded (expander : Expander) (e : Event) : nat :=
  match answer expander e with
  | Some (Ok value_set) => length (code_rows value_set)
  | _ => 0
  end.

(** Expansion is interleaved lazily with the statements: each time the
    expander is called, fewer than [size] of the rows expanded so far are
    still waiting to go into a statement, so every batch that could be
    filled has been issued before.  [pending] counts the waiting rows. *)
Fixpoint lazily (expander : Expander) (size pending : nat) (events : list Event) : bool :=
  match events with
  | [] => true
  | e :: rest =>
      match e with
      | EvExpand _ | EvExpandUsingService _ _ =>
          bool_decide (pending < size)
          && lazily expander size (pending + rows_expanded expander e) rest
      | EvQuery q => lazily expander size (pending - length (staged q)) rest
      | _ => lazily expander size pending rest
      end
  end.

(** What the batch-size bound says of the statements issued, for a
    given way of counting the rows of the input. *)
Definition distinct_rows (value_sets : list ValueSet) : nat :=
  length (remove_dups (all_rows value_sets)).

Definition total_rows (value_sets : list ValueSet) : nat :=
  length (all_rows value_sets).

Definition batch_bound (rows : nat) (batch_size : Z) (issued : list Insert) : Prop :=
  (Z.of_nat (length issued) ≤ ceil_div (Z.of_nat rows) batch_size)%Z ∧
  Forall (fun q => (Z.of_nat (length (staged q)) ≤ batch_size)%Z) issued.

(** From [s] to [s'] only the table called [name] may have changed, and
    only by gaining rows it did not hold, each once; the statements
    issued in between all go into [table]. *)
Definition grows (name : string) (table : TableClause) (s s' : State) : Prop :=
  this s' = this s ∧
  (∀ other, other ≠ name → tables s' !! other = tables s !! other) ∧
  (∀ stored, tables s !! name = Some stored →
     ∃ added,
       tables s' !! name = Some (with_rows stored (st_rows stored ++ added)) ∧
       NoDup added ∧ ∀ row, row ∈ added → row ∉ st_rows stored) ∧
  ∃ events, trace s' = trace s ++ events ∧
    Forall (fun q => into q = table) (inserts_issued events).

(** Two states that differ at most in the calls recorded so far. *)
Definition same_warehouse (s s' : State) : Prop :=
  this s' = this s ∧ tables s' = tables s ∧ served s' = served s ∧
  outage s' = outage s.

(** The value set an expander hands back for a url, when it does. *)
Definition expands_to (expander : Expander) (service_url : option string)
    (url : string) (value_set : ValueSet) : Prop :=
  answer expander (expansion_event service_url url) = Some (Ok value_set).

(** The batches filled to [size] while rows come in, and the rows left
    in the batch at hand. *)
Fixpoint complete (size : nat) (rows batch : list CodeRow)
    : list (list CodeRow) * list CodeRow :=
  match rows with
  | [] => ([], batch)
  | row :: rows' =>
      let batch' := batch ++ [row] in
      if decide (length batch' < size) then complete size rows' batch'
      else (batch' :: (complete size rows' []).1, (complete size rows' []).2)
  end.

(** ** Sample inputs *)

Definition sample_reference : TableReference :=
  {| ref_project := "p"; dataset_id := "d"; table_id := "t" |}.

Definition sample_manager : BigQueryValueSetManager :=
  {| _client := {| project := "p" |};
     _value_set_codes_table := IsReference sample_reference |}.

(** A warehouse with no table yet, which serves every request. *)
Definition empty_warehouse : State :=
  {| this := sample_manager; tables := ∅; served := 0;
     outage := fun _ => false; trace := [] |}.

(** The same, but failing the request numbered [n]. *)
Definition failing_at (n : nat) : State :=
  {| this := sample_manager; tables := ∅; served := 0;
     outage := fun i => bool_decide (i = n); trace := [] |}.

(** The value set of the spec's scenario and the two rows it stands for. *)
Definition scenario_value_set : ValueSet :=
  {| uri := "http://x/vs1"; version := Some "1";
     codes := [("sys1", "a"); ("sys1", "a"); ("sys2", "b")] |}.

Definition scenario_row_a : CodeRow :=
  {| valueseturi := "http://x/vs1"; valuesetversion := Some "1";
     system := "sys1"; code := "a" |}.

Definition scenario_row_b : CodeRow :=
  {| valueseturi := "http://x/vs1"; valuesetversion := Some "1";
     system := "sys2"; code := "b" |}.

(** A value set that lists one code twice. *)
Definition repeated_value_set : ValueSet :=
  {| uri := "u"; version := None; codes := [("s", "c"); ("s", "c")] |}.

(** A value set of three codes. *)
Definition three_codes : ValueSet :=
  {| uri := "u"; version := None; codes := [("s", "1"); ("s", "2"); ("s", "3")] |}.

(** A resolver that knows every url but one, and a service client. *)
Definition sample_resolver : Expander :=
  ValueSetResolver (fun url =>
    if decide (url = "missing") then Raise (ExpansionError url)
    else Ok {| uri := url; version := None; codes := [("s", "1"); ("s", "2")] |}).

Definition sample_service_client : Expander :=
  TerminologyServiceClient
    (fun url => Ok {| uri := url; version := None; codes := [("s", "1"); ("s", "2")] |})
    (fun url service =>
       Ok {| uri := url; version := Some service; codes := [("s", "1"); ("s", "2")] |}).

(** [TableReference.from_string] for ids of the form [dataset.table]
    with one-letter parts, enough to run [__init__]. *)
Definition sample_from_string (table default_project : string) : Result TableReference :=
  match table with
  | String d (String "."%char (String t EmptyString)) =>
      Ok {| ref_project := default_project;
            dataset_id := String d EmptyString; table_id := String t EmptyString |}
  | _ => Raise (ValueError table)
  end.

(** * Properties *)

Ltac unfold_M :=
  unfold bind, ret, raise, lift, emit, request, lookup_table, store_table, get_self.

(** ** One statement, and a list of them *)

Lemma with_rows_id stored : with_rows stored (st_rows stored) = stored.
Proof. by destruct stored. Qed.

Lemma run_query_ok q st stored :
  tables st !! table_name (into q) = Some stored →
  outage st (served st) = false →
  ∃ st', run_query q st = (Ok tt, st') ∧
    this st' = this st ∧
    tables st' = <[table_name (into q) :=
                    with_rows stored (st_rows stored ++ new_rows (st_rows stored) (staged q))]>
                  (tables st) ∧
    served st' = S (served st) ∧ outage st' = outage st ∧
    trace st' = trace st ++ [EvQuery q; EvResult q].
Proof.
  intros HT Hup. unfold query, result, run_insert. unfold_M. simpl.
  rewrite Hup. simpl. rewrite HT. simpl.
  eexists. split; [reflexivity|]. simpl. rewrite <- app_assoc. done.
Qed.

Lemma run_query_outage q st :
  outage st (served st) = true →
  ∃ st', run_query q st = (Raise (WarehouseError "query"), st') ∧
    this st' = this st ∧ tables st' = tables st ∧
    served st' = S (served st) ∧ outage st' = outage st ∧
    trace st' = trace st ++ [EvQuery q; EvResult q].
Proof.
  intros Hout. unfold query, result, run_insert. unfold_M. simpl.
  rewrite Hout. simpl.
  eexists. split; [reflexivity|]. simpl. rewrite <- app_assoc. done.
Qed.

Lemma run_batches table bs : ∀ st stored,
  tables st !! table_name table = Some stored →
  let k := uptime (outage st) (served st) (length bs) in
  let r := for_each (iter (map (Build_Insert table) bs)) run_query st in
  r.1 = (if decide (k = length bs) then Ok tt else Raise (WarehouseError "query")) ∧
  this r.2 = this st ∧
  tables r.2 = <[table_name table := with_rows stored (commit (st_rows stored) (take k bs))]>
                (tables st) ∧
  served r.2 = served st + (S k `min` length bs) ∧
  outage r.2 = outage st ∧
  trace r.2 = trace st ++ concat (map (job_events table) (take (S k) bs)).
Proof.
  induction bs as [|b bs IH]; intros st T HT; simpl.
  - rewrite app_nil_r, Nat.add_0_r.
    repeat split; try done. rewrite with_rows_id, insert_id; done.
  - destruct (outage st (served st)) eqn:Hout.
    + destruct (run_query_outage {| into := table; staged := b |} st Hout)
        as (st' & Hrun & Hthis & Htab & Hserved & Hout' & Htr).
      cbv beta in Hrun. rewrite Hrun. simpl.
      rewrite Hthis, Htab, Hserved, Hout', Htr.
      repeat split; try done; try lia.
      all: try (rewrite with_rows_id, insert_id; done).
      all: try by rewrite app_nil_r.
    + destruct (run_query_ok {| into := table; staged := b |} st T HT Hout)
        as (st' & Hrun & Hthis & Htab & Hserved & Hout' & Htr).
      cbv beta in Hrun. rewrite Hrun. simpl.
      specialize (IH st' (with_rows T (st_rows T ++ new_rows (st_rows T) b))).
      simpl in IH. rewrite Htab in IH. rewrite lookup_insert_eq in IH.
      specialize (IH eq_refl). rewrite Hserved, Hout' in IH.
      destruct IH as (Hres & Hthis2 & Htab2 & Hserved2 & Hout2 & Htr2).
      rewrite Hres, Hthis2, Htab2, Hserved2, Hout2, Htr2, Hthis, Htr.
      rewrite insert_insert_eq.
      repeat split; try done; try lia.
      all: try (repeat case_decide; try done; lia).
      all: try by rewrite <- app_assoc.
Qed.

(** ** Batching a list of value sets *)

Lemma fill_ext size table rows : ∀ batch next next',
  (∀ b, next b = next' b) →
  fill size table rows batch next = fill size table rows batch next'.
Proof.
  induction rows as [|row rows IH]; intros batch next next' Hext; simpl; [done|].
  case_decide; [|f_equal]; by apply IH.
Qed.

Lemma fill_chunks size table rows rest : ∀ batch,
  fill size table rows batch
    (fun b => iter (map (Build_Insert table) (chunks size rest b)))
  = iter (map (Build_Insert table) (chunks size (rows ++ rest) batch)).
Proof.
  induction rows as [|row rows IH]; intros batch; simpl; [done|].
  case_decide; simpl; by rewrite IH.
Qed.

Lemma batches_iter size table value_sets : ∀ batch,
  batches size table (iter value_sets) batch
  = iter (map (Build_Insert table) (chunks size (all_rows value_sets) batch)).
Proof.
  induction value_sets as [|value_set value_sets IH]; intros batch; simpl.
  - by destruct batch.
  - unfold all_rows. simpl. rewrite <- fill_chunks. by apply fill_ext.
Qed.

Lemma chunks_concat size rows : ∀ batch,
  concat (chunks size rows batch) = batch ++ rows.
Proof.
  induction rows as [|row rows IH]; intros batch; simpl.
  - destruct batch; simpl; by rewrite ?app_nil_r.
  - case_decide; simpl; rewrite IH; by rewrite <- ?app_assoc.
Qed.

Lemma chunks_bounded size rows : ∀ batch,
  length batch < size →
  Forall (fun b => 0 < length b ≤ size) (chunks size rows batch).
Proof.
  induction rows as [|row rows IH]; intros batch Hlen; simpl.
  - destruct batch; [constructor|]. constructor; [|constructor]. simpl in *. lia.
  - case_decide as Hlt.
    + by apply IH.
    + constructor.
      * rewrite length_app in *. simpl in *. lia.
      * apply IH. simpl. lia.
Qed.

Lemma div_bounds n d q : q * d ≤ n < (q + 1) * d → n / d = q.
Proof.
  intros H. symmetry. apply Nat.div_unique with (r := n - q * d); lia.
Qed.

Lemma chunks_length size rows : ∀ batch,
  length batch < size →
  length (chunks size rows batch) = (length batch + length rows + size - 1) / size.
Proof.
  induction rows as [|row rows IH]; intros batch Hlen; cbn [chunks].
  - destruct batch; cbn [length] in *.
    + symmetry. apply div_bounds. lia.
    + symmetry. apply div_bounds. lia.
  - case_decide as Hlt; rewrite length_app in Hlt; cbn [length] in *.
    + rewrite IH by (rewrite length_app; cbn [length]; lia).
      rewrite length_app. cbn [length]. f_equal. lia.
    + rewrite IH by (cbn [length]; lia). cbn [length].
      match goal with |- _ = ?X / _ =>
        replace X with (0 + length rows + size - 1 + 1 * size) by lia end.
      rewrite Nat.div_add by lia. lia.
Qed.

(** ** Provisioning, and materializing a list of value sets *)

Lemma provision_spec st :
  let r := _create_valueset_codes_table_if_not_exists st in
  this r.2 = this st ∧ outage r.2 = outage st ∧ served r.2 = S (served st) ∧
  trace r.2 = trace st ++ [EvCreateTable (wanted_table (this st))] ∧
  if outage st (served st)
  then r.1 = Raise (WarehouseError "create_table") ∧ tables r.2 = tables st
  else r.1 = Ok {| reference := to_reference (value_set_codes_table (this st));
                   schema := st_schema (provisioned st);
                   clustering_fields := st_clustering_fields (provisioned st) |} ∧
       tables r.2 = <[target st := provisioned st]> (tables st).
Proof.
  unfold _create_valueset_codes_table_if_not_exists, create_table, provisioned, target.
  unfold_M. simpl.
  destruct (outage st (served st)); simpl; [done|].
  unfold value_set_codes_table.
  destruct (tables st !! _) as [stored|] eqn:Hlook; simpl.
  - repeat split; try done. by rewrite insert_id.
  - done.
Qed.

Lemma materialize_value_sets_list value_sets batch_size st :
  let bs := batches_of batch_size value_sets in
  let r := materialize_value_sets (iter value_sets) batch_size st in
  this r.2 = this st ∧ outage r.2 = outage st ∧
  if outage st (served st)
  then r.1 = Raise (WarehouseError "create_table") ∧ tables r.2 = tables st ∧
       trace r.2 = trace st ++ [EvCreateTable (wanted_table (this st))] ∧
       served r.2 = S (served st)
  else
    let k := uptime (outage st) (S (served st)) (length bs) in
    r.1 = (if decide (k = length bs) then Ok tt else Raise (WarehouseError "query")) ∧
    tables r.2 = <[target st := with_rows (provisioned st)
                     (commit (st_rows (provisioned st)) (take k bs))]> (tables st) ∧
    trace r.2 = trace st ++ EvCreateTable (wanted_table (this st))
                  :: concat (map (job_events (clause st)) (take (S k) bs)) ∧
    served r.2 = S (served st) + (S k `min` length bs).
Proof.
  intros bs r. subst r. unfold materialize_value_sets, bind.
  pose proof (provision_spec st) as Hp. cbv zeta in Hp.
  destruct (_create_valueset_codes_table_if_not_exists st) as [res st1].
  simpl in Hp. destruct Hp as (Hthis & Hout & Hserved & Htrace & Hp).
  destruct (outage st (served st)).
  - destruct Hp as [-> Htab]. simpl. done.
  - destruct Hp as [-> Htab]. cbv zeta.
    unfold _bq_table_to_sqlalchemy_table. cbn [reference schema].
    change {| table_name := _; columns := _ |} with (clause st).
    assert (valueset_codes_insert_statement_for (iter value_sets) (clause st) batch_size
            = iter (map (Build_Insert (clause st)) bs)) as ->.
    { unfold valueset_codes_insert_statement_for, bs, batches_of.
      case_decide; [apply batches_iter|done]. }
    pose proof (run_batches (clause st) bs st1 (provisioned st)) as Hrun.
    cbv zeta in Hrun. cbn [clause table_name] in Hrun.
    rewrite Htab, lookup_insert_eq in Hrun. specialize (Hrun eq_refl).
    rewrite Hout, Hserved, Hthis, Htrace in Hrun.
    destruct Hrun as (Hr & Hthis2 & Htab2 & Hserved2 & Hout2 & Htrace2).
    unfold bind in *. rewrite Hr, Hthis2, Htab2, Hserved2, Hout2, Htrace2.
    rewrite insert_insert_eq, <- app_assoc. done.
Qed.

(** ** What committing batches does to the rows *)

Lemma elem_of_new_rows existing staged r :
  r ∈ new_rows existing staged ↔ r ∈ staged ∧ r ∉ existing.
Proof.
  unfold new_rows. rewrite list_elem_of_difference, elem_of_remove_dups. done.
Qed.

Lemma NoDup_new_rows existing staged : NoDup (new_rows existing staged).
Proof. apply NoDup_list_difference, NoDup_remove_dups. Qed.

Lemma commit_added bs : ∀ rows,
  ∃ added, commit rows bs = rows ++ added ∧ NoDup added ∧
    ∀ r, r ∈ added ↔ r ∈ concat bs ∧ r ∉ rows.
Proof.
  induction bs as [|b bs IH]; intros rows; simpl.
  - exists []. rewrite app_nil_r. split; [done|]. split; [constructor|].
    intros r. rewrite !elem_of_nil. tauto.
  - destruct (IH (rows ++ new_rows rows b)) as (added & Heq & Hnd & Hin).
    exists (new_rows rows b ++ added). split; [by rewrite Heq, app_assoc|]. split.
    + apply NoDup_app. split; [apply NoDup_new_rows|]. split; [|done].
      intros r Hr Hr'. apply Hin in Hr' as [_ Hr']. apply Hr'.
      apply elem_of_app. by right.
    + intros r. rewrite !elem_of_app, Hin, elem_of_new_rows, elem_of_app.
      rewrite elem_of_new_rows.
      destruct (decide (r ∈ b)); destruct (decide (r ∈ rows)); tauto.
Qed.

Lemma commit_covers rows bs r : r ∈ concat bs → r ∈ commit rows bs.
Proof.
  intros Hr. destruct (commit_added bs rows) as (added & -> & _ & Hin).
  apply elem_of_app. destruct (decide (r ∈ rows)); [by left|right].
  by apply Hin.
Qed.

Lemma commit_absorb rows bs : (∀ r, r ∈ concat bs → r ∈ rows) → commit rows bs = rows.
Proof.
  intros Hsub. destruct (commit_added bs rows) as (added & -> & _ & Hin).
  destruct added as [|r added]; [by rewrite app_nil_r|].
  destruct (Hin r) as [[Hr Hnr] _]; [by left|]. by apply Hsub in Hr.
Qed.

Lemma concat_take_subseteq {A} (ls : list (list A)) k x :
  x ∈ concat (take k ls) → x ∈ concat ls.
Proof.
  rewrite <- (take_drop k ls) at 2. rewrite concat_app, elem_of_app. by left.
Qed.

Lemma batches_of_concat batch_size value_sets :
  (0 < batch_size)%Z → concat (batches_of batch_size value_sets) = all_rows value_sets.
Proof.
  intros HB. unfold batches_of. rewrite decide_True by done. apply chunks_concat.
Qed.

(** ** The rows and the calls of a run over a list *)

Lemma rows_at_insert name stored st st' :
  tables st' = <[name := stored]> (tables st) → rows_at name st' = st_rows stored.
Proof. intros H. unfold rows_at. by rewrite H, lookup_insert_eq. Qed.

Lemma provisioned_rows st : st_rows (provisioned st) = table_rows st.
Proof.
  unfold provisioned, table_rows, rows_at. by destruct (tables st !! target st).
Qed.

Lemma since_app st st' events : trace st' = trace st ++ events → since st st' = events.
Proof. intros H. unfold since. by rewrite H, drop_app_length. Qed.

Lemma inserts_issued_jobs table bs :
  inserts_issued (concat (map (job_events table) bs)) = map (Build_Insert table) bs.
Proof. induction bs as [|b bs IH]; simpl; [done|]. by rewrite <- IH. Qed.

Lemma uptime_le outage from count : (uptime outage from count ≤ count)%nat.
Proof.
  revert from. induction count as [|count IH]; intros from; simpl; [done|].
  destruct (outage from); [lia|]. specialize (IH (S from)). lia.
Qed.

Lemma uptime_until outage k : ∀ from count,
  (∀ j, j < k → outage (from + j) = false) →
  outage (from + k) = true →
  k < count →
  uptime outage from count = k.
Proof.
  induction k as [|k IH]; intros from count Hup Hdown Hlt;
    (destruct count as [|count]; [lia|]); simpl.
  - rewrite Nat.add_0_r in Hdown. by rewrite Hdown.
  - rewrite <- (Nat.add_0_r from) at 1. rewrite Hup by lia. f_equal.
    apply IH; [|by rewrite Nat.add_succ_comm|lia].
    intros j Hj. rewrite Nat.add_succ_comm. apply Hup. lia.
Qed.

(** Where a run over a list leaves the table and what it issued: some
    prefix of the batches was committed, all of them if it returns. *)
Lemma materialize_value_sets_rows value_sets batch_size st :
  let bs := batches_of batch_size value_sets in
  let r := materialize_value_sets (iter value_sets) batch_size st in
  target r.2 = target st ∧
  ∃ k, (k ≤ length bs)%nat ∧
    table_rows r.2 = commit (table_rows st) (take k bs) ∧
    (r.1 = Ok tt → k = length bs) ∧
    ∃ issued, (issued ≤ length bs)%nat ∧
      inserts_issued (since st r.2) = map (Build_Insert (clause st)) (take issued bs).
Proof.
  intros bs r.
  destruct (materialize_value_sets_list value_sets batch_size st) as (Hthis & Hout & H).
  fold r in Hthis, Hout, H. fold bs in H.
  assert (target r.2 = target st) as Htarget by (unfold target; by rewrite Hthis).
  split; [done|].
  destruct (outage st (served st)).
  - destruct H as (Hr & Htab & Htrace & _). exists 0. split; [lia|].
    split; [|split].
    + rewrite take_0. simpl. unfold table_rows, rows_at. by rewrite Htarget, Htab.
    + by rewrite Hr.
    + exists 0. split; [lia|]. by rewrite (since_app _ _ _ Htrace), take_0.
  - cbv zeta in H. destruct H as (Hr & Htab & Htrace & _).
    set (k := uptime (outage st) (S (served st)) (length bs)) in *.
    pose proof (uptime_le (outage st) (S (served st)) (length bs)) as Hk. fold k in Hk.
    exists k. split; [done|]. split; [|split].
    + unfold table_rows. rewrite Htarget, (rows_at_insert _ _ _ _ Htab). simpl.
      by rewrite provisioned_rows.
    + rewrite Hr. by case_decide.
    + exists (S k `min` length bs). split; [lia|].
      rewrite (since_app _ _ _ Htrace). cbn [inserts_issued omap list_omap].
      change (omap _ ?l) with (inserts_issued l).
      rewrite inserts_issued_jobs. f_equal.
      by rewrite <- take_take, firstn_all.
Qed.

Lemma elem_of_batches_of batch_size value_sets r :
  r ∈ concat (batches_of batch_size value_sets) → r ∈ all_rows value_sets.
Proof.
  unfold batches_of. case_decide; [by rewrite chunks_concat|].
  simpl. by intros ?%elem_of_nil.
Qed.

(** ** Idempotence and deduplication *)

(** C1. What a run of [materialize_value_sets] over a list of value
    sets adds to the table comes after the rows that were there, holds
    no row twice, and holds only rows of the input that were not there
    before; and when the run returns, running it again on the same input
    leaves the rows of the table exactly as they are. *)
Theorem materialize_value_sets_idempotent
    (value_sets : list ValueSet) (batch_size : Z) (st : State) :
  let once := materialize_value_sets (iter value_sets) batch_size st in
  let twice := materialize_value_sets (iter value_sets) batch_size once.2 in
  (∃ added, table_rows once.2 = table_rows st ++ added ∧ NoDup added ∧
     ∀ r, r ∈ added → r ∈ all_rows value_sets ∧ r ∉ table_rows st) ∧
  (once.1 = Ok tt → table_rows twice.2 = table_rows once.2).
Proof.
  intros once twice.
  destruct (materialize_value_sets_rows value_sets batch_size st)
    as (_ & k & _ & Hrows & Hall & _).
  fold once in Hrows, Hall. split.
  - destruct (commit_added (take k (batches_of batch_size value_sets)) (table_rows st))
      as (added & Heq & Hnd & Hin).
    exists added. rewrite Hrows. split; [done|]. split; [done|].
    intros r [Hr Hnew]%Hin. split; [|done].
    by apply elem_of_batches_of with batch_size, concat_take_subseteq with k.
  - intros Hok. specialize (Hall Hok). subst k. rewrite firstn_all in Hrows.
    destruct (materialize_value_sets_rows value_sets batch_size once.2)
      as (_ & k2 & _ & Hrows2 & _).
    fold twice in Hrows2. rewrite Hrows2. apply commit_absorb. intros r Hr.
    rewrite Hrows. by apply commit_covers, concat_take_subseteq with k2.
Qed.

Lemma materialize_value_sets_idempotent_witness :
  table_rows (materialize_value_sets (iter [scenario_value_set]) 500
                (materialize_value_sets (iter [scenario_value_set]) 500
                   empty_warehouse).2).2
  = table_rows (materialize_value_sets (iter [scenario_value_set]) 500
                  empty_warehouse).2.
Proof.
  apply (materialize_value_sets_idempotent [scenario_value_set] 500 empty_warehouse).
  vm_compute. reflexivity.
Defined.

(** ** The batch-size bound *)

Lemma batches_of_length batch_size value_sets :
  (0 < batch_size)%Z →
  Z.of_nat (length (batches_of batch_size value_sets))
  = ceil_div (Z.of_nat (total_rows value_sets)) batch_size.
Proof.
  intros HB. unfold batches_of, ceil_div, total_rows. rewrite decide_True by done.
  rewrite chunks_length by (simpl; lia). cbn [length].
  rewrite Nat2Z.inj_div. f_equal; lia.
Qed.

Lemma batches_of_bounded batch_size value_sets :
  Forall (fun b => (Z.of_nat (length b) ≤ batch_size)%Z) (batches_of batch_size value_sets).
Proof.
  unfold batches_of. case_decide as HB; [|constructor].
  eapply Forall_impl; [apply chunks_bounded; simpl; lia|].
  simpl. intros b Hb. lia.
Qed.

(** C2, as the spec states it, fails: a value set that lists one code
    twice has one distinct row, so with a batch size of one the bound is
    one statement; two are issued. *)
Lemma batch_bound_by_distinct_rows_fails :
  ¬ batch_bound (distinct_rows [repeated_value_set]) 1
      (inserts_issued
         (since empty_warehouse
            (materialize_value_sets (iter [repeated_value_set]) 1 empty_warehouse).2)).
Proof. intros [Hcount _]. vm_compute in Hcount. by apply Hcount. Qed.

(** C2, amended. For a list of value sets whose expansions hold [N]
    code rows, repeated rows counted as often as they appear, and a
    batch size [B] of at least one, [materialize_value_sets] issues at
    most [ceil(N / B)] statements, none of which stages more than [B]
    rows. *)
Theorem batch_bound_by_total_rows
    (value_sets : list ValueSet) (batch_size : Z) (st : State) :
  (0 < batch_size)%Z →
  batch_bound (total_rows value_sets) batch_size
    (inserts_issued
       (since st (materialize_value_sets (iter value_sets) batch_size st).2)).
Proof.
  intros HB.
  destruct (materialize_value_sets_rows value_sets batch_size st)
    as (_ & _ & _ & _ & _ & issued & Hle & ->).
  split.
  - rewrite length_map, length_take, <- batches_of_length by done. lia.
  - apply Forall_map. simpl. apply Forall_take, batches_of_bounded.
Qed.

Lemma batch_bound_by_total_rows_witness :
  batch_bound (total_rows [repeated_value_set]) 1
    (inserts_issued
       (since empty_warehouse
          (materialize_value_sets (iter [repeated_value_set]) 1 empty_warehouse).2)).
Proof. apply (batch_bound_by_total_rows [repeated_value_set] 1 empty_warehouse). lia. Defined.

(** ** Duplicates within the input *)

Lemma materialize_value_sets_returns value_sets batch_size st :
  (materialize_value_sets (iter value_sets) batch_size st).1 = Ok tt →
  table_rows (materialize_value_sets (iter value_sets) batch_size st).2
  = commit (table_rows st) (batches_of batch_size value_sets).
Proof.
  intros Hok.
  destruct (materialize_value_sets_rows value_sets batch_size st)
    as (_ & k & _ & Hrows & Hall & _).
  rewrite Hrows, (Hall Hok). by rewrite firstn_all.
Qed.

(** C4. A run that returns adds to the table each row of the input that
    was not there, once, however often the input repeats it; and the
    scenario of the spec: on a warehouse that serves the two requests,
    materializing the value set [http://x/vs1], version [1], with codes
    [(sys1, a)], [(sys1, a)], [(sys2, b)] and batch size 500 returns and
    adds exactly the rows for [(sys1, a)] and [(sys2, b)]. *)
Theorem duplicate_codes_collapse :
  (∀ (value_sets : list ValueSet) (batch_size : Z) (st : State),
     (0 < batch_size)%Z →
     (materialize_value_sets (iter value_sets) batch_size st).1 = Ok tt →
     ∃ added,
       table_rows (materialize_value_sets (iter value_sets) batch_size st).2
       = table_rows st ++ added ∧
       NoDup added ∧
       ∀ r, r ∈ added ↔ r ∈ all_rows value_sets ∧ r ∉ table_rows st) ∧
  (∀ st : State,
     outage st (served st) = false →
     outage st (S (served st)) = false →
     scenario_row_a ∉ table_rows st →
     scenario_row_b ∉ table_rows st →
     (materialize_value_sets (iter [scenario_value_set]) 500 st).1 = Ok tt ∧
     table_rows (materialize_value_sets (iter [scenario_value_set]) 500 st).2
     = table_rows st ++ [scenario_row_a; scenario_row_b]).
Proof.
  split.
  - intros value_sets batch_size st HB Hok.
    rewrite materialize_value_sets_returns by done.
    destruct (commit_added (batches_of batch_size value_sets) (table_rows st))
      as (added & Heq & Hnd & Hin).
    exists added. split; [done|]. split; [done|].
    intros r. by rewrite Hin, batches_of_concat.
  - intros st Hup0 Hup1 Ha Hb.
    destruct (materialize_value_sets_list [scenario_value_set] 500 st) as (_ & _ & H).
    rewrite Hup0 in H. cbv zeta in H.
    change (batches_of 500 [scenario_value_set])
      with [[scenario_row_a; scenario_row_a; scenario_row_b]] in H.
    cbn [length uptime] in H. rewrite Hup1 in H.
    destruct H as (Hr & Htab & _). split; [done|].
    assert (target (materialize_value_sets (iter [scenario_value_set]) 500 st).2
            = target st) as Htarget
      by apply materialize_value_sets_rows.
    unfold table_rows at 1. rewrite Htarget, (rows_at_insert _ _ _ _ Htab).
    cbn [with_rows st_rows take commit foldl]. rewrite provisioned_rows.
    f_equal. unfold new_rows.
    change (remove_dups _) with [scenario_row_a; scenario_row_b].
    cbn [list_difference].
    destruct (decide_rel _ scenario_row_a _); [done|].
    by destruct (decide_rel _ scenario_row_b _).
Qed.

Lemma duplicate_codes_collapse_witness :
  table_rows (materialize_value_sets (iter [scenario_value_set]) 500 empty_warehouse).2
  = [scenario_row_a; scenario_row_b].
Proof.
  apply (proj2 duplicate_codes_collapse empty_warehouse); try reflexivity.
  - vm_compute. by intros ?%elem_of_nil.
  - vm_compute. by intros ?%elem_of_nil.
Defined.

(** ** Partial failure *)

(** C5. When provisioning and the batches before batch [k] go through
    and executing batch [k] fails, the run raises the warehouse's error;
    the statements issued are those of the batches up to [k] and no
    later one; the table holds what it held plus what the batches
    before [k] committed.  With three batches of which the second
    fails, every row of the first is in the table, and a row of the
    third is not, unless it was there before or is a row of the first
    as well. *)
Theorem partial_failure_is_visible
    (value_sets : list ValueSet) (batch_size : Z) (st : State) (k : nat) :
  outage st (served st) = false →
  (∀ j, j < k → outage st (S (served st) + j) = false) →
  outage st (S (served st) + k) = true →
  k < length (batches_of batch_size value_sets) →
  let bs := batches_of batch_size value_sets in
  let r := materialize_value_sets (iter value_sets) batch_size st in
  r.1 = Raise (WarehouseError "query") ∧
  inserts_issued (since st r.2) = map (Build_Insert (clause st)) (take (S k) bs) ∧
  table_rows r.2 = commit (table_rows st) (take k bs) ∧
  (∀ b1 b2 b3, bs = [b1; b2; b3] → k = 1 →
     (∀ row, row ∈ b1 → row ∈ table_rows r.2) ∧
     (∀ row, row ∈ b3 → row ∉ table_rows st → row ∉ b1 → row ∉ table_rows r.2)).
Proof.
  intros Hup0 Hup Hdown Hk bs r.
  destruct (materialize_value_sets_list value_sets batch_size st) as (Hthis & _ & H).
  fold r in Hthis, H. fold bs in H, Hk. rewrite Hup0 in H. cbv zeta in H.
  rewrite (uptime_until _ k) in H by done.
  destruct H as (Hr & Htab & Htrace & _).
  assert (table_rows r.2 = commit (table_rows st) (take k bs)) as Hrows.
  { unfold table_rows at 1, target. rewrite Hthis. fold (target st).
    rewrite (rows_at_insert _ _ _ _ Htab). simpl. by rewrite provisioned_rows. }
  split; [|split; [|split]].
  - rewrite Hr. rewrite decide_False by lia. done.
  - rewrite (since_app _ _ _ Htrace). cbn [inserts_issued omap list_omap].
    change (omap _ ?l) with (inserts_issued l). apply inserts_issued_jobs.
  - done.
  - intros b1 b2 b3 Hbs ->. rewrite Hrows, Hbs. cbn [take commit foldl]. split.
    + intros row Hrow. destruct (decide (row ∈ table_rows st)).
      * apply elem_of_app. by left.
      * apply elem_of_app. right. by apply elem_of_new_rows.
    + intros row _ Hnew Hnot [?|[? _]%elem_of_new_rows]%elem_of_app; done.
Qed.

Lemma partial_failure_is_visible_witness :
  let r := materialize_value_sets (iter [three_codes]) 1 (failing_at 2) in
  r.1 = Raise (WarehouseError "query") ∧
  map code (table_rows r.2) = ["1"].
Proof.
  destruct (partial_failure_is_visible [three_codes] 1 (failing_at 2) 1)
    as (Hr & _ & Hrows & _).
  - reflexivity.
  - intros j Hj. assert (j = 0) as -> by lia. reflexivity.
  - reflexivity.
  - vm_compute. lia.
  - split; [exact Hr|]. rewrite Hrows. reflexivity.
Defined.

(** ** Runs over a generator of expansions *)

Lemma valid_arguments_dispatch urls expander service_url batch_size :
  valid_arguments expander service_url →
  materialize_value_set_expansion urls expander service_url batch_size
  = materialize_value_sets
      (genexpr (expansion_call expander service_url) urls) batch_size.
Proof.
  unfold valid_arguments, materialize_value_set_expansion.
  destruct service_url as [service|]; intros Hvalid.
  - rewrite Hvalid by done. rewrite bool_decide_true by done. done.
  - rewrite bool_decide_false by naive_solver. done.
Qed.

Lemma expansion_call_spec expander service_url url st :
  valid_arguments expander service_url →
  let r := expansion_call expander service_url url st in
  this r.2 = this st ∧ tables r.2 = tables st ∧ served r.2 = served st ∧
  outage r.2 = outage st ∧
  trace r.2 = trace st ++ [expansion_event service_url url].
Proof.
  unfold valid_arguments, expansion_call, expand_value_set_url,
    expand_value_set_url_using_service.
  destruct service_url as [service|]; intros Hvalid; unfold_M; simpl.
  - destruct expander; [done|]. by specialize (Hvalid ltac:(done)).
  - by destruct expander.
Qed.

(** What holds between the states before and after each step holds
    across a run. *)
Section Steps.

Variable R : State → State → Prop.
Hypothesis R_refl : ∀ st, R st st.
Hypothesis R_trans : ∀ st1 st2 st3, R st1 st2 → R st2 st3 → R st1 st3.
Hypothesis R_query : ∀ q st, R st (run_query q st).2.

Variable size : nat.
Variable table : TableClause.

(** Filling batches from the rows of one value set runs some
    statements, and fails on one or goes on to the next value set. *)
Lemma for_each_fill next rows : ∀ batch st,
  let r := for_each (fill size table rows batch next) run_query st in
  (∃ e, r.1 = Raise e ∧ R st r.2) ∨
  (∃ batch' st', R st st' ∧ r = for_each (next batch') run_query st').
Proof.
  induction rows as [|row rows IH]; intros batch st; cbn [fill].
  - right. by exists batch, st.
  - cbv zeta. case_decide; [apply IH|]. cbn [for_each].
    pose proof (R_query {| into := table; staged := batch ++ [row] |} st) as Hq.
    cbv beta in Hq |- *.
    destruct (bind (query _) _ st) as [[[]|e] st1]; cbn [snd] in Hq.
    + destruct (IH [] st1) as [(e & He & HR)|(batch' & st' & HR & Heq)].
      * left. exists e. split; [done|]. by eapply R_trans.
      * right. exists batch', st'. split; [by eapply R_trans|done].
    + left. by exists e.
Qed.

Variable f : string → M ValueSet.
Hypothesis R_call : ∀ url st, R st (f url st).2.

Lemma for_each_batches urls : ∀ batch st,
  R st (for_each (batches size table (genexpr f urls) batch) run_query st).2.
Proof.
  induction urls as [|url urls IH]; intros batch st; cbn [genexpr batches].
  - destruct batch as [|row batch]; [apply R_refl|]. cbn [for_each].
    pose proof (R_query {| into := table; staged := row :: batch |} st) as Hq.
    cbv beta in Hq |- *. by destruct (bind (query _) _ st) as [[[]|e] st1].
  - cbn [for_each]. unfold bind at 1, ret.
    pose proof (R_call url st) as Hf.
    destruct (f url st) as [[value_set|e] st1]; cbn [snd] in Hf; [|done].
    cbn [batches].
    destruct (for_each_fill (batches size table (genexpr f urls))
                (code_rows value_set) batch st1)
      as [(e & He & HR)|(batch' & st' & HR & Heq)].
    + by eapply R_trans.
    + rewrite Heq. eapply R_trans; [done|]. eapply R_trans; [done|]. apply IH.
Qed.

End Steps.

(** ** What every run keeps *)

Lemma run_query_trace q st :
  let r := run_query q st in
  this r.2 = this st ∧ outage r.2 = outage st ∧
  trace r.2 = trace st ++ [EvQuery q; EvResult q].
Proof.
  unfold query, result, run_insert. unfold_M. simpl.
  destruct (outage st (served st)); simpl; [by rewrite <- app_assoc|].
  destruct (tables st !! _); simpl; by rewrite <- app_assoc.
Qed.

Lemma materialize_value_sets_unfold value_set_protos batch_size st :
  materialize_value_sets value_set_protos batch_size st
  = match _create_valueset_codes_table_if_not_exists st with
    | (Ok bq_table, st1) =>
        for_each
          (valueset_codes_insert_statement_for value_set_protos
             (_bq_table_to_sqlalchemy_table bq_table) batch_size)
          run_query st1
    | (Raise e, st1) => (Raise e, st1)
    end.
Proof. reflexivity. Qed.

Section Evolves.

Variable P : list Event → Prop.
Hypothesis P_nil : P [].
Hypothesis P_app : ∀ l1 l2, P l1 → P l2 → P (l1 ++ l2).
Hypothesis P_query : ∀ q, P [EvQuery q; EvResult q].

Lemma evolves_refl st : evolves P st st.
Proof. repeat split. exists []. by rewrite app_nil_r. Qed.

Lemma evolves_trans st1 st2 st3 :
  evolves P st1 st2 → evolves P st2 st3 → evolves P st1 st3.
Proof.
  intros (Ht1 & Ho1 & l1 & Hl1 & HP1) (Ht2 & Ho2 & l2 & Hl2 & HP2).
  split; [congruence|]. split; [congruence|].
  exists (l1 ++ l2). rewrite Hl2, Hl1, app_assoc. auto.
Qed.

Lemma evolves_query q st : evolves P st (run_query q st).2.
Proof.
  destruct (run_query_trace q st) as (Ht & Ho & Htr).
  split; [done|]. split; [done|]. eauto.
Qed.

Lemma evolves_jobs table bs : ∀ st,
  evolves P st (for_each (iter (map (Build_Insert table) bs)) run_query st).2.
Proof.
  induction bs as [|b bs IH]; intros st; cbn [map iter for_each].
  - apply evolves_refl.
  - pose proof (evolves_query {| into := table; staged := b |} st) as Hq.
    cbv beta in Hq |- *.
    destruct (bind (query _) _ st) as [[[]|e] st1]; cbn [snd] in Hq; [|done].
    eapply evolves_trans; [done|apply IH].
Qed.

(** After provisioning, a run only makes calls that [P] allows. *)
Lemma materialize_value_sets_evolves value_set_protos batch_size st :
  (∀ size table batch st,
     evolves P st (for_each (batches size table value_set_protos batch) run_query st).2) →
  let r := materialize_value_sets value_set_protos batch_size st in
  this r.2 = this st ∧ outage r.2 = outage st ∧
  ∃ events,
    trace r.2 = trace st ++ EvCreateTable (wanted_table (this st)) :: events ∧
    P events.
Proof.
  intros Hrun r. subst r. rewrite materialize_value_sets_unfold.
  pose proof (provision_spec st) as Hp. cbv zeta in Hp.
  destruct (_create_valueset_codes_table_if_not_exists st) as [[bq_table|e] st1];
    simpl in Hp; destruct Hp as (Hthis & Hout & _ & Htrace & _); cbn [snd].
  - unfold valueset_codes_insert_statement_for.
    case_decide.
    + destruct (Hrun (Z.to_nat batch_size) (_bq_table_to_sqlalchemy_table bq_table) [] st1)
        as (Ht & Ho & events & Hev & HP).
      split; [congruence|]. split; [congruence|].
      exists events. split; [|done]. by rewrite Hev, Htrace, <- app_assoc.
    + cbn [for_each snd]. split; [done|]. split; [done|]. by exists [].
  - split; [done|]. split; [done|]. by exists [].
Qed.

Lemma materialize_list_evolves value_sets batch_size st :
  let r := materialize_value_sets (iter value_sets) batch_size st in
  this r.2 = this st ∧ outage r.2 = outage st ∧
  ∃ events,
    trace r.2 = trace st ++ EvCreateTable (wanted_table (this st)) :: events ∧
    P events.
Proof.
  apply materialize_value_sets_evolves. intros size table batch st'.
  rewrite batches_iter. apply evolves_jobs.
Qed.

Variable expander : Expander.
Variable service_url : option string.
Hypothesis valid : valid_arguments expander service_url.
Hypothesis P_expansion : ∀ url, P [expansion_event service_url url].

Lemma materialize_expansion_evolves urls batch_size st :
  let r := materialize_value_set_expansion urls expander service_url batch_size st in
  this r.2 = this st ∧ outage r.2 = outage st ∧
  ∃ events,
    trace r.2 = trace st ++ EvCreateTable (wanted_table (this st)) :: events ∧
    P events.
Proof.
  rewrite valid_arguments_dispatch by done.
  apply materialize_value_sets_evolves. intros size table batch st'.
  apply for_each_batches.
  - apply evolves_refl.
  - apply evolves_trans.
  - apply evolves_query.
  - intros url st2.
    destruct (expansion_call_spec expander service_url url st2 valid)
      as (Ht & _ & _ & Ho & Htr).
    split; [done|]. split; [done|]. eauto.
Qed.

End Evolves.

(** ** The order of the calls *)

Lemma sequential_app l1 l2 :
  sequential l1 = true → sequential l2 = true → sequential (l1 ++ l2) = true.
Proof.
  intros H1 H2. remember (length l1) as n eqn:Hn.
  revert l1 Hn H1. induction (lt_wf n) as [n _ IH]. intros l1 -> H1.
  destruct l1 as [|e l1]; [done|].
  destruct e; cbn [app sequential] in *;
    try (apply (IH (length l1)); [simpl; lia|done|done]).
  - destruct l1 as [|e' l1]; [done|].
    destruct e'; try done. cbn [app].
    apply andb_prop in H1 as [Hq H1]. rewrite Hq. cbn [andb].
    apply (IH (length l1)); [simpl; lia|done|done].
  - done.
Qed.

Lemma expansions_app l1 l2 : expansions (l1 ++ l2) = expansions l1 ++ expansions l2.
Proof. apply filter_app. Qed.

Lemma for_each_batches_cons (f : string → M ValueSet) url urls size table batch
    (body : Insert → M unit) st :
  for_each (batches size table (genexpr f (url :: urls)) batch) body st
  = match f url st with
    | (Ok value_set, st1) =>
        for_each (fill size table (code_rows value_set) batch
                    (batches size table (genexpr f urls))) body st1
    | (Raise e, st1) => (Raise e, st1)
    end.
Proof.
  cbn [genexpr batches for_each]. unfold bind, ret.
  by destruct (f url st) as [[value_set|e] st1].
Qed.

(** The expander is called for the urls in their order, one call per
    url, for as long as the run lasts. *)
Lemma expansions_in_order expander service_url size table urls :
  valid_arguments expander service_url →
  ∀ batch st,
    let r := for_each
               (batches size table (genexpr (expansion_call expander service_url) urls) batch)
               run_query st in
    ∃ k, (k ≤ length urls)%nat ∧
      expansions (trace r.2)
      = expansions (trace st) ++ map (expansion_event service_url) (take k urls) ∧
      (r.1 = Ok tt → k = length urls).
Proof.
  intros valid.
  set (R := fun st st' : State => expansions (trace st') = expansions (trace st)).
  assert (∀ q st, R st (run_query q st).2) as R_query.
  { intros q st. destruct (run_query_trace q st) as (_ & _ & Htr).
    unfold R. rewrite Htr, expansions_app. cbn. by rewrite app_nil_r. }
  induction urls as [|url urls IH]; intros batch st.
  - cbn [genexpr batches]. exists 0. split; [done|]. cbn [take map]. rewrite app_nil_r.
    destruct batch as [|row batch]; [done|]. cbn [for_each].
    pose proof (R_query {| into := table; staged := row :: batch |} st) as Hq.
    cbv beta in Hq |- *.
    by destruct (bind (query _) _ st) as [[[]|e] st1].
  - rewrite for_each_batches_cons.
    destruct (expansion_call_spec expander service_url url st valid)
      as (_ & _ & _ & _ & Htr).
    destruct (expansion_call expander service_url url st) as [[value_set|e] st1];
      cbn [snd] in Htr.
    + destruct (for_each_fill R ltac:(done) ltac:(unfold R; congruence) R_query size table
                  (batches size table (genexpr (expansion_call expander service_url) urls))
                  (code_rows value_set) batch st1)
        as [(e & He & HR)|(batch' & st' & HR & Heq)].
      * exists 1. split; [simpl; lia|]. rewrite HR, He, Htr, expansions_app.
        split; [|done]. cbn [take map]. rewrite take_0.
        by destruct service_url.
      * rewrite Heq. destruct (IH batch' st') as (k & Hk & Hexp & Hall).
        exists (S k). split; [simpl; lia|]. rewrite Hexp, HR, Htr, expansions_app.
        split; [|intros ?; cbn [length]; f_equal; auto].
        cbn [take map]. rewrite <- app_assoc. f_equal.
        by destruct service_url.
    + exists 1. split; [simpl; lia|]. cbn [fst snd]. rewrite Htr, expansions_app.
      split; [|done]. cbn [take map]. rewrite take_0. by destruct service_url.
Qed.

(** ** Validation *)

Lemma rejected_arguments urls expander service_url batch_size st :
  service_url ≠ None →
  is_TerminologyServiceClient expander = false →
  materialize_value_set_expansion urls expander service_url batch_size st
  = (Raise (TypeError
       "`terminology_service_url` can only be given if `expander` is a TerminologyServiceClient"),
     st).
Proof.
  intros Hurl Hexp. unfold materialize_value_set_expansion.
  by rewrite Hexp, bool_decide_true.
Qed.

(** C3. A service url given with an expander that is not a
    [TerminologyServiceClient] makes [materialize_value_set_expansion]
    raise the [TypeError] that says so, in the state it was called in:
    no table was created, no query run and no url expanded. *)
Theorem service_url_needs_a_service_client
    (urls : list string) (expander : Expander)
    (terminology_service_url : option string) (batch_size : Z) (st : State) :
  terminology_service_url ≠ None →
  is_TerminologyServiceClient expander = false →
  let r := materialize_value_set_expansion urls expander terminology_service_url
             batch_size st in
  r = (Raise (TypeError
         "`terminology_service_url` can only be given if `expander` is a TerminologyServiceClient"),
       st) ∧
  since st r.2 = [].
Proof.
  intros Hurl Hexp r. subst r. rewrite rejected_arguments by done.
  split; [done|]. unfold since. cbn [snd]. by rewrite drop_all.
Qed.

Lemma service_url_needs_a_service_client_witness :
  (materialize_value_set_expansion ["u1"; "u2"] sample_resolver (Some "svc") 500
     empty_warehouse).2 = empty_warehouse.
Proof.
  destruct (service_url_needs_a_service_client ["u1"; "u2"] sample_resolver (Some "svc")
              500 empty_warehouse) as [Hr _]; [done|reflexivity|].
  by rewrite Hr.
Defined.

(** ** Which call expands a url *)

Lemma materialize_expansion_calls urls expander service_url batch_size st :
  valid_arguments expander service_url →
  let r := materialize_value_set_expansion urls expander service_url batch_size st in
  ∃ k, (k ≤ length urls)%nat ∧
    expansions (since st r.2) = map (expansion_event service_url) (take k urls) ∧
    ((0 < batch_size)%Z → r.1 = Ok tt → k = length urls).
Proof.
  intros valid r.
  destruct (materialize_expansion_evolves (fun _ => True) ltac:(done) ltac:(done)
              ltac:(done) expander service_url valid ltac:(done) urls batch_size st)
    as (_ & _ & events & Hev & _).
  fold r in Hev. rewrite (since_app _ _ _ Hev).
  assert (∃ k, (k ≤ length urls)%nat ∧
            expansions (trace r.2)
            = expansions (trace st) ++ map (expansion_event service_url) (take k urls) ∧
            ((0 < batch_size)%Z → r.1 = Ok tt → k = length urls))
    as (k & Hk & Hexp & Hall).
  { subst r. rewrite valid_arguments_dispatch, materialize_value_sets_unfold by done.
    pose proof (provision_spec st) as Hp. cbv zeta in Hp.
    destruct (_create_valueset_codes_table_if_not_exists st) as [[bq_table|e] st1];
      simpl in Hp; destruct Hp as (_ & _ & _ & Htrace & _).
    - unfold valueset_codes_insert_statement_for. case_decide as HB.
      + destruct (expansions_in_order expander service_url (Z.to_nat batch_size)
                    (_bq_table_to_sqlalchemy_table bq_table) urls valid [] st1)
          as (k & Hk & Hexp & Hall).
        exists k. split; [done|]. split; [|auto].
        rewrite Hexp, Htrace, expansions_app. cbn. by rewrite app_nil_r.
      + exists 0. split; [lia|]. cbn [for_each fst snd take map].
        rewrite Htrace, expansions_app. cbn. done.
    - exists 0. split; [lia|]. cbn [fst snd take map].
      rewrite Htrace, expansions_app. cbn. done. }
  exists k. split; [done|]. split; [|done].
  rewrite Hev, expansions_app in Hexp. by apply app_inv_head in Hexp.
Qed.

(** C6. With arguments that pass the check,
    [materialize_value_set_expansion] materializes the generator that
    expands each url with [expand_value_set_url_using_service(url,
    terminology_service_url)] when a service url is given and with
    [expand_value_set_url(url)] when none is, whatever the expander;
    the calls the expander receives during the run are these, for the
    urls in their order, and for all of them when the run returns. *)
Theorem expansion_call_follows_service_url
    (urls : list string) (expander : Expander)
    (terminology_service_url : option string) (batch_size : Z) (st : State) :
  valid_arguments expander terminology_service_url →
  materialize_value_set_expansion urls expander terminology_service_url batch_size
  = materialize_value_sets
      (genexpr (fun url =>
                  match terminology_service_url with
                  | Some service =>
                      expand_value_set_url_using_service expander url service
                  | None => expand_value_set_url expander url
                  end) urls)
      batch_size ∧
  let r := materialize_value_set_expansion urls expander terminology_service_url
             batch_size st in
  ∃ k, (k ≤ length urls)%nat ∧
    expansions (since st r.2)
    = map (fun url =>
             match terminology_service_url with
             | Some service => EvExpandUsingService url service
             | None => EvExpand url
             end) (take k urls) ∧
    ((0 < batch_size)%Z → r.1 = Ok tt → k = length urls).
Proof.
  intros valid. split.
  - by apply valid_arguments_dispatch.
  - by apply materialize_expansion_calls.
Qed.

Lemma expansion_call_follows_service_url_witness :
  expansions
    (since empty_warehouse
       (materialize_value_set_expansion ["u1"; "u2"] sample_service_client None 500
          empty_warehouse).2)
  = [EvExpand "u1"; EvExpand "u2"].
Proof.
  destruct (expansion_call_follows_service_url ["u1"; "u2"] sample_service_client None
              500 empty_warehouse) as (_ & k & _ & Hexp & Hall); [done|].
  rewrite Hexp, Hall; [reflexivity|lia|reflexivity].
Defined.

(** ** Provisioning *)

Lemma not_create_query q : Forall (fun e => is_create e = false) [EvQuery q; EvResult q].
Proof. by repeat constructor. Qed.

Lemma not_create_expansion service_url url :
  Forall (fun e => is_create e = false) [expansion_event service_url url].
Proof. destruct service_url; by repeat constructor. Qed.

(** C7. [_create_valueset_codes_table_if_not_exists] asks the client for
    the manager's table; when it is absent, and the warehouse serves the
    request, it is created empty with the four columns [valueseturi
    STRING REQUIRED], [valuesetversion STRING NULLABLE], [system STRING
    REQUIRED], [code STRING REQUIRED] and clustered by [valueseturi],
    [code]; when it is present, it is handed back with the schema it
    has and the warehouse is left as it is.  A run of
    [materialize_value_sets], and one of
    [materialize_value_set_expansion] whose arguments pass the check,
    starts with that call and makes no other such call. *)
Theorem table_is_provisioned_once :
  (∀ st : State,
     outage st (served st) = false →
     tables st !! target st = None →
     let r := _create_valueset_codes_table_if_not_exists st in
     ∃ bq_table, r.1 = Ok bq_table ∧
       reference bq_table = to_reference (value_set_codes_table (this st)) ∧
       schema bq_table
       = [ {| field_name := "valueseturi"; field_type := "STRING"; field_mode := REQUIRED |};
           {| field_name := "valuesetversion"; field_type := "STRING";
              field_mode := NULLABLE |};
           {| field_name := "system"; field_type := "STRING"; field_mode := REQUIRED |};
           {| field_name := "code"; field_type := "STRING"; field_mode := REQUIRED |} ] ∧
       clustering_fields bq_table = Some ["valueseturi"; "code"] ∧
       tables r.2
       = <[target st := {| st_schema := schema bq_table;
                           st_clustering_fields := clustering_fields bq_table;
                           st_rows := [] |}]> (tables st)) ∧
  (∀ (st : State) (stored : StoredTable),
     outage st (served st) = false →
     tables st !! target st = Some stored →
     let r := _create_valueset_codes_table_if_not_exists st in
     r.1 = Ok {| reference := to_reference (value_set_codes_table (this st));
                 schema := st_schema stored;
                 clustering_fields := st_clustering_fields stored |} ∧
     tables r.2 = tables st) ∧
  (∀ (value_sets : list ValueSet) (batch_size : Z) (st : State),
     ∃ events,
       since st (materialize_value_sets (iter value_sets) batch_size st).2
       = EvCreateTable (wanted_table (this st)) :: events ∧
       Forall (fun e => is_create e = false) events) ∧
  (∀ (urls : list string) (expander : Expander) (terminology_service_url : option string)
     (batch_size : Z) (st : State),
     valid_arguments expander terminology_service_url →
     ∃ events,
       since st (materialize_value_set_expansion urls expander terminology_service_url
                   batch_size st).2
       = EvCreateTable (wanted_table (this st)) :: events ∧
       Forall (fun e => is_create e = false) events).
Proof.
  split; [|split; [|split]].
  - intros st Hup Habsent r.
    destruct (provision_spec st) as (_ & _ & _ & _ & Hp). fold r in Hp.
    rewrite Hup in Hp. destruct Hp as [Hr Htab].
    unfold provisioned in Hr, Htab. rewrite Habsent in Hr, Htab.
    change (default fresh_table None) with fresh_table in Hr, Htab.
    eexists. split; [exact Hr|]. by cbn [reference schema clustering_fields].
  - intros st stored Hup Hpresent r.
    destruct (provision_spec st) as (_ & _ & _ & _ & Hp). fold r in Hp.
    rewrite Hup in Hp. destruct Hp as [Hr Htab].
    unfold provisioned in Hr, Htab. rewrite Hpresent in Hr, Htab.
    change (default fresh_table (Some stored)) with stored in Hr, Htab.
    split; [done|]. by rewrite Htab, insert_id.
  - intros value_sets batch_size st.
    destruct (materialize_list_evolves (Forall (fun e => is_create e = false))
                ltac:(constructor) ltac:(intros; by apply Forall_app) not_create_query
                value_sets batch_size st) as (_ & _ & events & Hev & HP).
    exists events. by rewrite (since_app _ _ _ Hev).
  - intros urls expander service_url batch_size st valid.
    destruct (materialize_expansion_evolves (Forall (fun e => is_create e = false))
                ltac:(constructor) ltac:(intros; by apply Forall_app) not_create_query
                expander service_url valid (not_create_expansion service_url)
                urls batch_size st) as (_ & _ & events & Hev & HP).
    exists events. by rewrite (since_app _ _ _ Hev).
Qed.

Lemma table_is_provisioned_once_witness :
  tables (_create_valueset_codes_table_if_not_exists empty_warehouse).2
  = {[ "p.d.t" := fresh_table ]}.
Proof.
  destruct (proj1 table_is_provisioned_once empty_warehouse)
    as (bq_table & _ & _ & Hschema & Hclustering & Htab); [reflexivity|reflexivity|].
  rewrite Htab, Hschema, Hclustering. reflexivity.
Defined.

(** ** The empty input *)

(** C9. With no value set to materialize, or no url to expand and
    arguments that pass the check, a run makes one call, the one that
    provisions the table: no statement is issued and the expander is
    not called.  When the warehouse serves that request, the run
    returns and the table is there. *)
Theorem empty_input_only_provisions :
  (∀ (batch_size : Z) (st : State),
     let r := materialize_value_sets (iter []) batch_size st in
     since st r.2 = [EvCreateTable (wanted_table (this st))] ∧
     inserts_issued (since st r.2) = [] ∧
     expansions (since st r.2) = [] ∧
     (outage st (served st) = false →
      r.1 = Ok tt ∧ tables r.2 !! target st = Some (provisioned st))) ∧
  (∀ (expander : Expander) (terminology_service_url : option string)
     (batch_size : Z) (st : State),
     valid_arguments expander terminology_service_url →
     let r := materialize_value_set_expansion [] expander terminology_service_url
                batch_size st in
     since st r.2 = [EvCreateTable (wanted_table (this st))] ∧
     inserts_issued (since st r.2) = [] ∧
     expansions (since st r.2) = [] ∧
     (outage st (served st) = false →
      r.1 = Ok tt ∧ tables r.2 !! target st = Some (provisioned st))).
Proof.
  assert (∀ batch_size st,
            let r := materialize_value_sets Stop batch_size st in
            since st r.2 = [EvCreateTable (wanted_table (this st))] ∧
            inserts_issued (since st r.2) = [] ∧
            expansions (since st r.2) = [] ∧
            (outage st (served st) = false →
             r.1 = Ok tt ∧ tables r.2 !! target st = Some (provisioned st))) as Hempty.
  { intros batch_size st r. subst r. rewrite materialize_value_sets_unfold.
    pose proof (provision_spec st) as Hp. cbv zeta in Hp.
    assert (∀ table, for_each (valueset_codes_insert_statement_for Stop table batch_size)
                       run_query = fun st1 => (Ok tt, st1)) as Hloop.
    { intros table. unfold valueset_codes_insert_statement_for. by case_decide. }
    destruct (_create_valueset_codes_table_if_not_exists st) as [[bq_table|e] st1];
      simpl in Hp; destruct Hp as (_ & _ & _ & Htrace & Hp);
      rewrite ?Hloop; cbn [fst snd]; rewrite (since_app _ _ _ Htrace);
      (split; [done|]); (split; [done|]); (split; [done|]);
      intros Hup; rewrite Hup in Hp; destruct Hp as [Hr Htab]; [|done].
    split; [done|]. by rewrite Htab, lookup_insert_eq. }
  split.
  - apply Hempty.
  - intros expander service_url batch_size st valid.
    rewrite valid_arguments_dispatch by done. apply Hempty.
Qed.

Lemma empty_input_only_provisions_witness :
  let r := materialize_value_set_expansion [] sample_resolver None 500 empty_warehouse in
  r.1 = Ok tt ∧ tables r.2 !! "p.d.t" = Some fresh_table.
Proof.
  destruct (proj2 empty_input_only_provisions sample_resolver None 500%Z empty_warehouse)
    as (_ & _ & _ & H); [by intros []|].
  apply H. reflexivity.
Defined.

(** ** The manager's table *)

Lemma valid_arguments_dec expander service_url :
  valid_arguments expander service_url ∨
  (service_url ≠ None ∧ is_TerminologyServiceClient expander = false).
Proof.
  unfold valid_arguments. destruct service_url; [|by left].
  destruct (is_TerminologyServiceClient expander); [by left|by right].
Qed.

(** C10. [__init__] resolves a table given by name against the client's
    project, with [TableReference.from_string], and keeps a table or
    reference as given; neither [materialize_value_sets] nor
    [materialize_value_set_expansion] changes what the
    [value_set_codes_table] property returns. *)
Theorem value_set_codes_table_is_fixed :
  (∀ (from_string : string → string → Result TableReference) (client : Client)
     (name : string) (r : TableReference),
     from_string name (project client) = Ok r →
     ∃ self, __init__ from_string client (Named name) = Ok self ∧
       value_set_codes_table self = IsReference r) ∧
  (∀ (from_string : string → string → Result TableReference) (client : Client)
     (table : TableLike),
     ∃ self, __init__ from_string client (Resolved table) = Ok self ∧
       value_set_codes_table self = table) ∧
  (∀ (value_sets : list ValueSet) (batch_size : Z) (st : State),
     value_set_codes_table
       (this (materialize_value_sets (iter value_sets) batch_size st).2)
     = value_set_codes_table (this st)) ∧
  (∀ (urls : list string) (expander : Expander) (terminology_service_url : option string)
     (batch_size : Z) (st : State),
     value_set_codes_table
       (this (materialize_value_set_expansion urls expander terminology_service_url
                batch_size st).2)
     = value_set_codes_table (this st)).
Proof.
  split; [|split; [|split]].
  - intros from_string client name r Hr. unfold __init__. rewrite Hr. eauto.
  - intros from_string client table. unfold __init__. eauto.
  - intros value_sets batch_size st.
    destruct (materialize_list_evolves (fun _ => True) ltac:(done) ltac:(done) ltac:(done)
                value_sets batch_size st) as (Hthis & _).
    by rewrite Hthis.
  - intros urls expander service_url batch_size st.
    destruct (valid_arguments_dec expander service_url) as [valid|[Hurl Hexp]].
    + destruct (materialize_expansion_evolves (fun _ => True) ltac:(done) ltac:(done)
                  ltac:(done) expander service_url valid ltac:(done) urls batch_size st)
        as (Hthis & _).
      by rewrite Hthis.
    + by rewrite rejected_arguments.
Qed.

Lemma value_set_codes_table_is_fixed_witness :
  ∃ self, __init__ sample_from_string {| project := "p" |} (Named "d.t") = Ok self ∧
    value_set_codes_table self = IsReference sample_reference.
Proof.
  apply (proj1 value_set_codes_table_is_fixed sample_from_string {| project := "p" |} "d.t").
  reflexivity.
Defined.

(** ** Sequencing and laziness *)

Lemma expansion_call_answer expander service_url url st :
  valid_arguments expander service_url →
  answer expander (expansion_event service_url url)
  = Some (expansion_call expander service_url url st).1.
Proof.
  unfold valid_arguments, expansion_call, expand_value_set_url,
    expand_value_set_url_using_service.
  destruct service_url as [service|]; intros Hvalid; unfold_M; simpl.
  - destruct expander; [done|]. by specialize (Hvalid ltac:(done)).
  - by destruct expander.
Qed.

Lemma lazily_fill expander size table next rows :
  (∀ batch st, length batch < size →
     ∃ events, trace (for_each (next batch) run_query st).2 = trace st ++ events ∧
       lazily expander size (length batch) events = true) →
  ∀ batch st, length batch < size →
    ∃ events,
      trace (for_each (fill size table rows batch next) run_query st).2
      = trace st ++ events ∧
      lazily expander size (length batch + length rows) events = true.
Proof.
  intros Hnext. induction rows as [|row rows IH]; intros batch st Hlen; cbn [fill].
  - cbn [length]. rewrite Nat.add_0_r. by apply Hnext.
  - cbv zeta. case_decide as Hlt.
    + destruct (IH (batch ++ [row]) st Hlt) as (events & Hev & Hlazy).
      exists events. split; [done|].
      rewrite length_app in Hlazy. cbn [length] in *.
      by replace (length batch + S (length rows)) with (length batch + 1 + length rows)
        by lia.
    + rewrite length_app in Hlt. cbn [length] in Hlt. cbn [for_each].
      destruct (run_query_trace {| into := table; staged := batch ++ [row] |} st)
        as (_ & _ & Htr).
      cbv beta in Htr |- *.
      destruct (bind (query _) _ st) as [[[]|e] st1]; cbn [snd] in Htr.
      * destruct (IH [] st1) as (events & Hev & Hlazy); [simpl; lia|].
        exists ([EvQuery {| into := table; staged := batch ++ [row] |};
                 EvResult {| into := table; staged := batch ++ [row] |}] ++ events).
        split; [by rewrite Hev, Htr, <- app_assoc|].
        cbn [app lazily staged]. rewrite length_app. cbn [length] in *.
        by replace (length batch + S (length rows) - (length batch + 1))
          with (0 + length rows) by lia.
      * eexists. split; [exact Htr|]. done.
Qed.

Lemma lazily_batches expander service_url size table urls :
  valid_arguments expander service_url →
  ∀ batch st, length batch < size →
    ∃ events,
      trace (for_each
               (batches size table (genexpr (expansion_call expander service_url) urls)
                  batch)
               run_query st).2
      = trace st ++ events ∧
      lazily expander size (length batch) events = true.
Proof.
  intros valid. induction urls as [|url urls IH]; intros batch st Hlen.
  - cbn [genexpr batches]. destruct batch as [|row batch].
    + exists []. by rewrite app_nil_r.
    + cbn [for_each].
      destruct (run_query_trace {| into := table; staged := row :: batch |} st)
        as (_ & _ & Htr).
      cbv beta in Htr |- *.
      destruct (bind (query _) _ st) as [[[]|e] st1]; cbn [snd] in Htr;
        eexists; (split; [exact Htr|done]).
  - rewrite for_each_batches_cons.
    destruct (expansion_call_spec expander service_url url st valid)
      as (_ & _ & _ & _ & Htr).
    pose proof (expansion_call_answer expander service_url url st valid) as Hanswer.
    assert (is_expansion (expansion_event service_url url) = true) as Hexp
      by by destruct service_url.
    destruct (expansion_call expander service_url url st) as [[value_set|e] st1];
      cbn [fst snd] in Htr, Hanswer.
    + destruct (lazily_fill expander size table
                  (batches size table (genexpr (expansion_call expander service_url) urls))
                  (code_rows value_set) IH batch st1 Hlen) as (events & Hev & Hlazy).
      exists (expansion_event service_url url :: events).
      split; [by rewrite Hev, Htr, <- app_assoc|].
      assert (lazily expander size (length batch) (expansion_event service_url url :: events)
              = bool_decide (length batch < size)
                && lazily expander size
                     (length batch + rows_expanded expander (expansion_event service_url url))
                     events) as -> by by destruct service_url.
      unfold rows_expanded. rewrite Hanswer, Hlazy. by rewrite bool_decide_true.
    + exists [expansion_event service_url url]. split; [done|].
      destruct service_url; cbn [expansion_event lazily];
        by rewrite bool_decide_true.
Qed.

Lemma sequential_query q : sequential [EvQuery q; EvResult q] = true.
Proof. cbn [sequential]. by rewrite bool_decide_true. Qed.

Lemma sequential_expansion service_url url :
  sequential [expansion_event service_url url] = true.
Proof. by destruct service_url. Qed.

(** C8. In every run each statement handed to [client.query] is waited
    for with [result()] before anything else happens.  In a run of
    [materialize_value_set_expansion] the urls are expanded one at a
    time in their order, and, for a batch size of at least one, each is
    expanded only once fewer rows than a batch are left waiting from the
    urls before it: the statements for the rows expanded so far are
    issued before the next url is expanded. *)
Theorem execution_is_sequential_and_lazy :
  (∀ (value_sets : list ValueSet) (batch_size : Z) (st : State),
     sequential (since st (materialize_value_sets (iter value_sets) batch_size st).2)
     = true) ∧
  (∀ (urls : list string) (expander : Expander) (terminology_service_url : option string)
     (batch_size : Z) (st : State),
     valid_arguments expander terminology_service_url →
     let r := materialize_value_set_expansion urls expander terminology_service_url
                batch_size st in
     sequential (since st r.2) = true ∧
     (∃ k, (k ≤ length urls)%nat ∧
        expansions (since st r.2)
        = map (expansion_event terminology_service_url) (take k urls)) ∧
     ((0 < batch_size)%Z →
      lazily expander (Z.to_nat batch_size) 0 (since st r.2) = true)).
Proof.
  split.
  - intros value_sets batch_size st.
    destruct (materialize_list_evolves (fun l => sequential l = true)
                ltac:(done) sequential_app sequential_query value_sets batch_size st)
      as (_ & _ & events & Hev & HP).
    by rewrite (since_app _ _ _ Hev).
  - intros urls expander service_url batch_size st valid r. split; [|split].
    + destruct (materialize_expansion_evolves (fun l => sequential l = true)
                  ltac:(done) sequential_app sequential_query
                  expander service_url valid (sequential_expansion service_url)
                  urls batch_size st)
        as (_ & _ & events & Hev & HP).
      fold r in Hev. by rewrite (since_app _ _ _ Hev).
    + destruct (materialize_expansion_calls urls expander service_url batch_size st valid)
        as (k & Hk & Hexp & _).
      by exists k.
    + intros HB. subst r.
      rewrite valid_arguments_dispatch, materialize_value_sets_unfold by done.
      pose proof (provision_spec st) as Hp. cbv zeta in Hp.
      destruct (_create_valueset_codes_table_if_not_exists st) as [[bq_table|e] st1];
        simpl in Hp; destruct Hp as (_ & _ & _ & Htrace & _).
      * unfold valueset_codes_insert_statement_for. rewrite decide_True by done.
        destruct (lazily_batches expander service_url (Z.to_nat batch_size)
                    (_bq_table_to_sqlalchemy_table bq_table) urls valid [] st1)
          as (events & Hev & Hlazy); [simpl; lia|].
        rewrite Htrace, <- app_assoc in Hev. by rewrite (since_app _ _ _ Hev).
      * cbn [snd]. by rewrite (since_app _ _ _ Htrace).
Qed.

Lemma execution_is_sequential_and_lazy_witness :
  let r := materialize_value_set_expansion ["u1"; "u2"] sample_resolver None 2
             empty_warehouse in
  lazily sample_resolver 2 0 (since empty_warehouse r.2) = true ∧
  map is_expansion (since empty_warehouse r.2)
  = [false; true; false; false; true; false; false].
Proof.
  destruct (proj2 execution_is_sequential_and_lazy ["u1"; "u2"] sample_resolver None 2%Z
              empty_warehouse) as (_ & _ & Hlazy); [by intros []|].
  split; [apply Hlazy; lia|reflexivity].
Defined.

(** * Further properties *)

(** ** Runs whose statements all go into one table *)

Section StepsOn.

Variable R : State → State → Prop.
Hypothesis R_refl : ∀ st, R st st.
Hypothesis R_trans : ∀ st1 st2 st3, R st1 st2 → R st2 st3 → R st1 st3.

Variable size : nat.
Variable table : TableClause.
Hypothesis R_query : ∀ b st, R st (run_query {| into := table; staged := b |} st).2.

Lemma for_each_fill_on next rows : ∀ batch st,
  let r := for_each (fill size table rows batch next) run_query st in
  (∃ e, r.1 = Raise e ∧ R st r.2) ∨
  (∃ batch' st', R st st' ∧ r = for_each (next batch') run_query st').
Proof.
  induction rows as [|row rows IH]; intros batch st; cbn [fill].
  - right. by exists batch, st.
  - cbv zeta. case_decide; [apply IH|]. cbn [for_each].
    pose proof (R_query (batch ++ [row]) st) as Hq.
    cbv beta in Hq |- *.
    destruct (bind (query _) _ st) as [[[]|e] st1]; cbn [snd] in Hq.
    + destruct (IH [] st1) as [(e & He & HR)|(batch' & st' & HR & Heq)].
      * left. exists e. split; [done|]. by eapply R_trans.
      * right. exists batch', st'. split; [by eapply R_trans|done].
    + left. by exists e.
Qed.

Variable f : string → M ValueSet.
Hypothesis R_call : ∀ url st, R st (f url st).2.

Lemma for_each_batches_on urls : ∀ batch st,
  R st (for_each (batches size table (genexpr f urls) batch) run_query st).2.
Proof.
  induction urls as [|url urls IH]; intros batch st.
  - cbn [genexpr batches]. destruct batch as [|row batch]; [apply R_refl|].
    cbn [for_each]. pose proof (R_query (row :: batch) st) as Hq.
    cbv beta in Hq |- *. by destruct (bind (query _) _ st) as [[[]|e] st1].
  - rewrite for_each_batches_cons. pose proof (R_call url st) as Hf.
    destruct (f url st) as [[value_set|e] st1]; cbn [snd] in Hf; [|done].
    destruct (for_each_fill_on (batches size table (genexpr f urls))
                (code_rows value_set) batch st1)
      as [(e & He & HR)|(batch' & st' & HR & Heq)].
    + by eapply R_trans.
    + rewrite Heq. eapply R_trans; [done|]. eapply R_trans; [done|]. apply IH.
Qed.

Lemma for_each_jobs_on bs : ∀ st,
  R st (for_each (iter (map (Build_Insert table) bs)) run_query st).2.
Proof.
  induction bs as [|b bs IH]; intros st; cbn [map iter for_each]; [apply R_refl|].
  pose proof (R_query b st) as Hq. cbv beta in Hq |- *.
  destruct (bind (query _) _ st) as [[[]|e] st1]; cbn [snd] in Hq; [|done].
  eapply R_trans; [done|apply IH].
Qed.

End StepsOn.

(** ** The table only grows *)

Lemma inserts_issued_app l1 l2 :
  inserts_issued (l1 ++ l2) = inserts_issued l1 ++ inserts_issued l2.
Proof. apply omap_app. Qed.

Lemma with_rows_with_rows stored rows rows' :
  with_rows (with_rows stored rows) rows' = with_rows stored rows'.
Proof. done. Qed.

Lemma grows_refl name table st : grows name table st st.
Proof.
  split; [done|]. split; [done|]. split.
  - intros stored Hs. exists []. rewrite app_nil_r, with_rows_id.
    split; [done|]. split; [constructor|]. by intros row ?%elem_of_nil.
  - exists []. by rewrite app_nil_r.
Qed.

Lemma grows_trans name table st1 st2 st3 :
  grows name table st1 st2 → grows name table st2 st3 → grows name table st1 st3.
Proof.
  intros (Ht1 & Ho1 & Hg1 & l1 & Hl1 & HP1) (Ht2 & Ho2 & Hg2 & l2 & Hl2 & HP2).
  split; [congruence|]. split; [|split].
  - intros other Hne. by rewrite Ho2, Ho1.
  - intros stored Hs. destruct (Hg1 stored Hs) as (a1 & Hs2 & Hnd1 & Hnew1).
    destruct (Hg2 _ Hs2) as (a2 & Hs3 & Hnd2 & Hnew2). cbn [with_rows st_rows] in *.
    exists (a1 ++ a2). rewrite Hs3, with_rows_with_rows, app_assoc.
    split; [done|]. split.
    + apply NoDup_app. split; [done|]. split; [|done].
      intros row Hr1 Hr2. apply (Hnew2 row Hr2), elem_of_app. by right.
    + intros row [Hr|Hr]%elem_of_app; [by apply Hnew1|].
      intros Hin. apply (Hnew2 row Hr), elem_of_app. by left.
  - exists (l1 ++ l2). rewrite Hl2, Hl1, app_assoc, inserts_issued_app.
    split; [done|]. by apply Forall_app.
Qed.

Lemma grows_query table b st :
  grows (table_name table) table st (run_query {| into := table; staged := b |} st).2.
Proof.
  set (q := {| into := table; staged := b |}).
  destruct (run_query_trace q st) as (Hthis & _ & Htr).
  assert (∃ events, trace (run_query q st).2 = trace st ++ events ∧
            Forall (fun q => into q = table) (inserts_issued events)) as Hev.
  { eexists. split; [exact Htr|]. by repeat constructor. }
  destruct (outage st (served st)) eqn:Hout.
  - destruct (run_query_outage q st Hout) as (st' & Hrun & _ & Htab & _).
    cbv beta in Hrun, Hthis, Hev |- *. rewrite Hrun in *. cbn [snd] in *.
    split; [done|]. split; [by rewrite Htab|]. split; [|done].
    intros stored Hs. exists []. rewrite Htab, app_nil_r, with_rows_id.
    split; [done|]. split; [constructor|]. by intros row ?%elem_of_nil.
  - destruct (tables st !! table_name table) as [stored|] eqn:Hs.
    + destruct (run_query_ok q st stored Hs Hout) as (st' & Hrun & _ & Htab & _).
      cbv beta in Hrun, Hthis, Hev |- *. rewrite Hrun in *. cbn [snd] in *.
      split; [done|]. split; [|split; [|done]].
      * intros other Hne. cbn [q into] in Htab. by rewrite Htab, lookup_insert_ne.
      * intros stored' Hs'. rewrite Hs in Hs'. injection Hs' as <-.
        cbn [q into staged] in Htab.
        exists (new_rows (st_rows stored) b). rewrite Htab, lookup_insert_eq.
        split; [done|]. split; [apply NoDup_new_rows|].
        by intros row [_ ?]%elem_of_new_rows.
    + assert (tables (run_query q st).2 = tables st) as Htab.
      { unfold query, result, run_insert. unfold_M. cbn.
        rewrite Hout. cbn. by rewrite Hs. }
      split; [done|]. split; [by rewrite Htab|]. split; [|done].
      intros stored Hs'. cbn [q into] in *. congruence.
Qed.

Lemma grows_expansion name table expander service_url url st :
  valid_arguments expander service_url →
  grows name table st (expansion_call expander service_url url st).2.
Proof.
  intros valid.
  destruct (expansion_call_spec expander service_url url st valid)
    as (Hthis & Htab & _ & _ & Htr).
  split; [done|]. split; [by rewrite Htab|]. split.
  - intros stored Hs. exists []. rewrite Htab, app_nil_r, with_rows_id.
    split; [done|]. split; [constructor|]. by intros row ?%elem_of_nil.
  - eexists. split; [exact Htr|]. destruct service_url; constructor.
Qed.

(** What a run does to the warehouse, given what its loop does. *)
Lemma materialize_value_sets_grows value_set_protos batch_size st :
  (∀ size batch st1,
     grows (target st) (clause st) st1
       (for_each (batches size (clause st) value_set_protos batch) run_query st1).2) →
  let r := materialize_value_sets value_set_protos batch_size st in
  this r.2 = this st ∧
  (∀ other, other ≠ target st → tables r.2 !! other = tables st !! other) ∧
  (∀ stored, tables st !! target st = Some stored →
     ∃ stored', tables r.2 !! target st = Some stored' ∧
       st_schema stored' = st_schema stored ∧
       st_clustering_fields stored' = st_clustering_fields stored) ∧
  (∃ added, table_rows r.2 = table_rows st ++ added ∧ NoDup added ∧
     ∀ row, row ∈ added → row ∉ table_rows st) ∧
  Forall (fun q => into q = clause st) (inserts_issued (since st r.2)).
Proof.
  intros Hrun r. subst r. rewrite materialize_value_sets_unfold.
  pose proof (provision_spec st) as Hp. cbv zeta in Hp.
  assert (∀ st', this st' = this st → tables st' = tables st →
            ∃ added, table_rows st' = table_rows st ++ added ∧ NoDup added ∧
              ∀ row, row ∈ added → row ∉ table_rows st) as Hsame.
  { intros st' Ht Htab. exists []. unfold table_rows, rows_at, target.
    rewrite Ht, Htab, app_nil_r. split; [done|]. split; [constructor|].
    by intros row ?%elem_of_nil. }
  destruct (_create_valueset_codes_table_if_not_exists st) as [[bq_table|e] st1];
    simpl in Hp; destruct Hp as (Hthis & _ & _ & Htrace & Hp).
  - destruct (outage st (served st)); destruct Hp as [Hr Htab]; [done|].
    injection Hr as ->. unfold _bq_table_to_sqlalchemy_table. cbn [reference schema].
    change {| table_name := _; columns := _ |} with (clause st).
    assert (∀ g, grows (target st) (clause st) st1 (for_each g run_query st1).2 →
              let r := for_each g run_query st1 in
              this r.2 = this st ∧
              (∀ other, other ≠ target st → tables r.2 !! other = tables st !! other) ∧
              (∀ stored, tables st !! target st = Some stored →
                 ∃ stored', tables r.2 !! target st = Some stored' ∧
                   st_schema stored' = st_schema stored ∧
                   st_clustering_fields stored' = st_clustering_fields stored) ∧
              (∃ added, table_rows r.2 = table_rows st ++ added ∧ NoDup added ∧
                 ∀ row, row ∈ added → row ∉ table_rows st) ∧
              Forall (fun q => into q = clause st) (inserts_issued (since st r.2)))
      as Hloop.
    { intros g (Ht & Ho & Hg & events & Hev & HP) r.
      destruct (Hg (provisioned st)) as (added & Hs & Hnd & Hnew);
        [by rewrite Htab, lookup_insert_eq|].
      fold r in Ht, Ho, Hs, Hev.
      split; [congruence|]. split; [|split; [|split]].
      - intros other Hne. by rewrite Ho, Htab, lookup_insert_ne.
      - intros stored Hstored. eexists. split; [exact Hs|].
        unfold provisioned. by rewrite Hstored.
      - exists added. rewrite <- (provisioned_rows st). split; [|done].
        unfold table_rows, rows_at, target. rewrite Ht, Hthis.
        fold (target st). by rewrite Hs.
      - rewrite Htrace, <- app_assoc in Hev. by rewrite (since_app _ _ _ Hev). }
    unfold valueset_codes_insert_statement_for. case_decide.
    + apply Hloop, Hrun.
    + apply Hloop. cbn [for_each snd]. apply grows_refl.
  - destruct (outage st (served st)); destruct Hp as [Hr Htab]; [|done].
    cbn [snd]. split; [done|]. split; [by rewrite Htab|]. split; [|split].
    + intros stored Hs. exists stored. by rewrite Htab.
    + by apply Hsame.
    + by rewrite (since_app _ _ _ Htrace).
Qed.

Lemma materialize_list_grows value_sets batch_size st :
  let r := materialize_value_sets (iter value_sets) batch_size st in
  this r.2 = this st ∧
  (∀ other, other ≠ target st → tables r.2 !! other = tables st !! other) ∧
  (∀ stored, tables st !! target st = Some stored →
     ∃ stored', tables r.2 !! target st = Some stored' ∧
       st_schema stored' = st_schema stored ∧
       st_clustering_fields stored' = st_clustering_fields stored) ∧
  (∃ added, table_rows r.2 = table_rows st ++ added ∧ NoDup added ∧
     ∀ row, row ∈ added → row ∉ table_rows st) ∧
  Forall (fun q => into q = clause st) (inserts_issued (since st r.2)).
Proof.
  apply materialize_value_sets_grows. intros size batch st1.
  rewrite batches_iter.
  apply (for_each_jobs_on (grows (target st) (clause st))).
  - apply grows_refl.
  - apply grows_trans.
  - intros b st2. apply (grows_query (clause st)).
Qed.

Lemma materialize_expansion_grows urls expander service_url batch_size st :
  let r := materialize_value_set_expansion urls expander service_url batch_size st in
  this r.2 = this st ∧
  (∀ other, other ≠ target st → tables r.2 !! other = tables st !! other) ∧
  (∀ stored, tables st !! target st = Some stored →
     ∃ stored', tables r.2 !! target st = Some stored' ∧
       st_schema stored' = st_schema stored ∧
       st_clustering_fields stored' = st_clustering_fields stored) ∧
  (∃ added, table_rows r.2 = table_rows st ++ added ∧ NoDup added ∧
     ∀ row, row ∈ added → row ∉ table_rows st) ∧
  Forall (fun q => into q = clause st) (inserts_issued (since st r.2)).
Proof.
  destruct (valid_arguments_dec expander service_url) as [valid|[Hurl Hexp]].
  - rewrite valid_arguments_dispatch by done.
    apply materialize_value_sets_grows. intros size batch st1.
    apply (for_each_batches_on (grows (target st) (clause st))).
    + apply grows_refl.
    + apply grows_trans.
    + intros b st2. apply (grows_query (clause st)).
    + intros url st2. by apply grows_expansion.
  - rewrite rejected_arguments by done. cbn [snd].
    split; [done|]. split; [done|]. split; [|split].
    + intros stored Hs. by exists stored.
    + exists []. rewrite app_nil_r. split; [done|]. split; [constructor|].
      by intros row ?%elem_of_nil.
    + unfold since. by rewrite drop_all.
Qed.

(** ** Where the statements go, and what is left alone *)

(** X1. Every statement a run issues is built on the manager's table:
    it names [project.dataset.table] of the reference the manager keeps,
    and its columns are the field names of the schema the warehouse
    holds for that table, or of the four-column schema when the run
    creates it. *)
Theorem statements_go_into_the_managers_table :
  (∀ (value_sets : list ValueSet) (batch_size : Z) (st : State),
     Forall (fun q =>
               table_name (into q)
               = full_name (to_reference (value_set_codes_table (this st))) ∧
               columns (into q)
               = map field_name
                   (match tables st !! target st with
                    | Some stored => st_schema stored
                    | None => valueset_codes_schema
                    end))
       (inserts_issued
          (since st (materialize_value_sets (iter value_sets) batch_size st).2))) ∧
  (∀ (urls : list string) (expander : Expander) (terminology_service_url : option string)
     (batch_size : Z) (st : State),
     Forall (fun q =>
               table_name (into q)
               = full_name (to_reference (value_set_codes_table (this st))) ∧
               columns (into q)
               = map field_name
                   (match tables st !! target st with
                    | Some stored => st_schema stored
                    | None => valueset_codes_schema
                    end))
       (inserts_issued
          (since st (materialize_value_set_expansion urls expander terminology_service_url
                       batch_size st).2))).
Proof.
  assert (∀ st q, into q = clause st →
            table_name (into q)
            = full_name (to_reference (value_set_codes_table (this st))) ∧
            columns (into q)
            = map field_name
                (match tables st !! target st with
                 | Some stored => st_schema stored
                 | None => valueset_codes_schema
                 end)) as Hclause.
  { intros st q ->. split; [done|]. unfold clause, provisioned. cbn [columns].
    by destruct (tables st !! target st). }
  split.
  - intros value_sets batch_size st.
    destruct (materialize_list_grows value_sets batch_size st) as (_ & _ & _ & _ & H).
    eapply Forall_impl; [exact H|]. apply Hclause.
  - intros urls expander service_url batch_size st.
    destruct (materialize_expansion_grows urls expander service_url batch_size st)
      as (_ & _ & _ & _ & H).
    eapply Forall_impl; [exact H|]. apply Hclause.
Qed.

(** X2. Whatever its outcome, a run leaves every other table of the
    warehouse exactly as it was, and a table of the manager's that
    already exists keeps its schema and its clustering fields. *)
Theorem other_tables_and_the_schema_are_kept :
  (∀ (value_sets : list ValueSet) (batch_size : Z) (st : State),
     let r := materialize_value_sets (iter value_sets) batch_size st in
     (∀ other, other ≠ target st → tables r.2 !! other = tables st !! other) ∧
     (∀ stored, tables st !! target st = Some stored →
        ∃ stored', tables r.2 !! target st = Some stored' ∧
          st_schema stored' = st_schema stored ∧
          st_clustering_fields stored' = st_clustering_fields stored)) ∧
  (∀ (urls : list string) (expander : Expander) (terminology_service_url : option string)
     (batch_size : Z) (st : State),
     let r := materialize_value_set_expansion urls expander terminology_service_url
                batch_size st in
     (∀ other, other ≠ target st → tables r.2 !! other = tables st !! other) ∧
     (∀ stored, tables st !! target st = Some stored →
        ∃ stored', tables r.2 !! target st = Some stored' ∧
          st_schema stored' = st_schema stored ∧
          st_clustering_fields stored' = st_clustering_fields stored)).
Proof.
  split.
  - intros value_sets batch_size st.
    destruct (materialize_list_grows value_sets batch_size st) as (_ & H1 & H2 & _).
    by split.
  - intros urls expander service_url batch_size st.
    destruct (materialize_expansion_grows urls expander service_url batch_size st)
      as (_ & H1 & H2 & _).
    by split.
Qed.

(** X3. [materialize_value_set_expansion] only appends: whatever the
    urls, the expander and the outcome, the rows the table held come
    first and unchanged in the rows it holds afterwards, and the rows
    added hold no row twice and no row the table held. *)
Theorem expansion_only_appends
    (urls : list string) (expander : Expander) (terminology_service_url : option string)
    (batch_size : Z) (st : State) :
  ∃ added,
    table_rows (materialize_value_set_expansion urls expander terminology_service_url
                  batch_size st).2
    = table_rows st ++ added ∧
    NoDup added ∧
    ∀ row, row ∈ added → row ∉ table_rows st.
Proof.
  by destruct (materialize_expansion_grows urls expander terminology_service_url
                 batch_size st) as (_ & _ & _ & H & _).
Qed.

(** ** Provisioning that fails, or is repeated *)

(** X4. When the warehouse fails the [create_table] request, the run
    raises that error at once: the call to [create_table] is the only
    one made, so no statement is issued and no url is expanded, and the
    warehouse is as it was. *)
Theorem failed_provisioning_stops_the_run :
  (∀ (value_sets : list ValueSet) (batch_size : Z) (st : State),
     outage st (served st) = true →
     let r := materialize_value_sets (iter value_sets) batch_size st in
     r.1 = Raise (WarehouseError "create_table") ∧
     since st r.2 = [EvCreateTable (wanted_table (this st))] ∧
     tables r.2 = tables st) ∧
  (∀ (urls : list string) (expander : Expander) (terminology_service_url : option string)
     (batch_size : Z) (st : State),
     valid_arguments expander terminology_service_url →
     outage st (served st) = true →
     let r := materialize_value_set_expansion urls expander terminology_service_url
                batch_size st in
     r.1 = Raise (WarehouseError "create_table") ∧
     since st r.2 = [EvCreateTable (wanted_table (this st))] ∧
     tables r.2 = tables st).
Proof.
  assert (∀ value_set_protos batch_size st,
            outage st (served st) = true →
            let r := materialize_value_sets value_set_protos batch_size st in
            r.1 = Raise (WarehouseError "create_table") ∧
            since st r.2 = [EvCreateTable (wanted_table (this st))] ∧
            tables r.2 = tables st) as Hfail.
  { intros value_set_protos batch_size st Hout r. subst r.
    rewrite materialize_value_sets_unfold.
    pose proof (provision_spec st) as Hp. cbv zeta in Hp. rewrite Hout in Hp.
    destruct (_create_valueset_codes_table_if_not_exists st) as [[bq_table|e] st1];
      simpl in Hp; destruct Hp as (_ & _ & _ & Htrace & Hr & Htab); [done|].
    cbn [fst snd]. injection Hr as ->. by rewrite (since_app _ _ _ Htrace). }
  split.
  - intros value_sets batch_size st. apply Hfail.
  - intros urls expander service_url batch_size st valid.
    rewrite valid_arguments_dispatch by done. apply Hfail.
Qed.

Lemma failed_provisioning_stops_the_run_witness :
  expansions
    (since (failing_at 0)
       (materialize_value_set_expansion ["u1"; "u2"] sample_resolver None 500
          (failing_at 0)).2)
  = [].
Proof.
  destruct (proj2 failed_provisioning_stops_the_run ["u1"; "u2"] sample_resolver None
              500%Z (failing_at 0)) as (_ & Hsince & _);
    [by intros []|reflexivity|].
  rewrite Hsince. reflexivity.
Defined.

(** X5. Provisioning twice is provisioning once: when the warehouse
    serves both requests, the second
    [_create_valueset_codes_table_if_not_exists] hands back the same
    table as the first and leaves the warehouse as the first left it. *)
Theorem provisioning_is_idempotent (st : State) :
  outage st (served st) = false →
  outage st (S (served st)) = false →
  let first := _create_valueset_codes_table_if_not_exists st in
  let second := _create_valueset_codes_table_if_not_exists first.2 in
  (∃ bq_table, first.1 = Ok bq_table ∧ second.1 = Ok bq_table) ∧
  tables second.2 = tables first.2.
Proof.
  intros Hup0 Hup1 first second.
  destruct (provision_spec st) as (Hthis & Hout & Hserved & _ & Hp).
  fold first in Hthis, Hout, Hserved, Hp. rewrite Hup0 in Hp. destruct Hp as [Hr Htab].
  assert (target first.2 = target st) as Htarget by (unfold target; by rewrite Hthis).
  assert (provisioned first.2 = provisioned st) as Hprov.
  { unfold provisioned at 1. by rewrite Htarget, Htab, lookup_insert_eq. }
  destruct (provision_spec first.2) as (_ & _ & _ & _ & Hp).
  fold second in Hp. rewrite Hout, Hserved, Hup1, Hthis, Htarget, Hprov in Hp.
  destruct Hp as [Hr2 Htab2]. split.
  - eexists. split; [exact Hr|exact Hr2].
  - by rewrite Htab2, Htab, insert_insert_eq.
Qed.

Lemma provisioning_is_idempotent_witness :
  tables (_create_valueset_codes_table_if_not_exists
            (_create_valueset_codes_table_if_not_exists empty_warehouse).2).2
  = tables (_create_valueset_codes_table_if_not_exists empty_warehouse).2.
Proof.
  apply (provisioning_is_idempotent empty_warehouse); reflexivity.
Defined.

(** ** Splitting the input *)

Lemma all_rows_app value_sets1 value_sets2 :
  all_rows (value_sets1 ++ value_sets2) = all_rows value_sets1 ++ all_rows value_sets2.
Proof. unfold all_rows. by rewrite map_app, concat_app. Qed.

Lemma rows_after_a_returning_run value_sets batch_size st row :
  (0 < batch_size)%Z →
  (materialize_value_sets (iter value_sets) batch_size st).1 = Ok tt →
  row ∈ table_rows (materialize_value_sets (iter value_sets) batch_size st).2
  ↔ row ∈ table_rows st ∨ row ∈ all_rows value_sets.
Proof.
  intros HB Hok. rewrite materialize_value_sets_returns by done.
  destruct (commit_added (batches_of batch_size value_sets) (table_rows st))
    as (added & -> & _ & Hin).
  rewrite elem_of_app, Hin, batches_of_concat by done.
  destruct (decide (row ∈ table_rows st)); tauto.
Qed.

(** X6. Materializing value sets in two calls, or in one call over all
    of them, leaves the same rows in the table, as a set, whatever the
    (positive) batch sizes, when the runs return. *)
Theorem splitting_the_input_gives_the_same_rows
    (value_sets1 value_sets2 : list ValueSet) (batch_size batch_size1 batch_size2 : Z)
    (st : State) :
  (0 < batch_size)%Z → (0 < batch_size1)%Z → (0 < batch_size2)%Z →
  let whole := materialize_value_sets (iter (value_sets1 ++ value_sets2)) batch_size st in
  let first := materialize_value_sets (iter value_sets1) batch_size1 st in
  let second := materialize_value_sets (iter value_sets2) batch_size2 first.2 in
  whole.1 = Ok tt → first.1 = Ok tt → second.1 = Ok tt →
  ∀ row, row ∈ table_rows second.2 ↔ row ∈ table_rows whole.2.
Proof.
  intros HB HB1 HB2 whole first second Hwhole Hfirst Hsecond row.
  subst whole first second.
  rewrite !rows_after_a_returning_run by done.
  rewrite all_rows_app, elem_of_app. tauto.
Qed.

Lemma splitting_the_input_gives_the_same_rows_witness :
  scenario_row_b
    ∈ table_rows
        (materialize_value_sets (iter [three_codes]) 2
           (materialize_value_sets (iter [scenario_value_set]) 1 empty_warehouse).2).2
  ↔ scenario_row_b
      ∈ table_rows
          (materialize_value_sets (iter ([scenario_value_set] ++ [three_codes])) 500
             empty_warehouse).2.
Proof.
  apply (splitting_the_input_gives_the_same_rows [scenario_value_set] [three_codes]
           500 1 2 empty_warehouse); try lia; reflexivity.
Defined.

(** ** Expanding urls and materializing what they expand to *)

Lemma run_query_same q sa sb :
  same_warehouse sa sb →
  (run_query q sb).1 = (run_query q sa).1 ∧
  same_warehouse (run_query q sa).2 (run_query q sb).2.
Proof.
  destruct sa, sb. unfold same_warehouse. cbn. intros (-> & -> & -> & ->).
  unfold query, result, run_insert. unfold_M. cbn.
  destruct (outage0 served0); cbn; [done|].
  by destruct (tables0 !! table_name (into q)).
Qed.

Lemma inserts_issued_query events q :
  inserts_issued (events ++ [EvQuery q; EvResult q]) = inserts_issued events ++ [q].
Proof. by rewrite inserts_issued_app. Qed.

(** Two runs in step: the same outcome, the same warehouse, the same
    statements issued. *)
Lemma for_each_fill_same size table rows next_a next_b :
  (∀ batch sa sb,
     same_warehouse sa sb → inserts_issued (trace sb) = inserts_issued (trace sa) →
     let ra := for_each (next_a batch) run_query sa in
     let rb := for_each (next_b batch) run_query sb in
     rb.1 = ra.1 ∧ same_warehouse ra.2 rb.2 ∧
     inserts_issued (trace rb.2) = inserts_issued (trace ra.2)) →
  ∀ batch sa sb,
    same_warehouse sa sb → inserts_issued (trace sb) = inserts_issued (trace sa) →
    let ra := for_each (fill size table rows batch next_a) run_query sa in
    let rb := for_each (fill size table rows batch next_b) run_query sb in
    rb.1 = ra.1 ∧ same_warehouse ra.2 rb.2 ∧
    inserts_issued (trace rb.2) = inserts_issued (trace ra.2).
Proof.
  intros Hnext. induction rows as [|row rows IH]; intros batch sa sb Hsame Hissued;
    cbn [fill].
  - by apply Hnext.
  - cbv zeta. case_decide; [by apply IH|]. cbn [for_each].
    set (q := {| into := table; staged := batch ++ [row] |}).
    destruct (run_query_same q sa sb Hsame) as (Hr & Hsame').
    destruct (run_query_trace q sa) as (_ & _ & Htra).
    destruct (run_query_trace q sb) as (_ & _ & Htrb).
    cbv beta in Hr, Hsame', Htra, Htrb |- *.
    destruct (bind (query q) _ sa) as [ra sa1]. destruct (bind (query q) _ sb) as [rb sb1].
    cbn [fst snd] in *. subst rb.
    assert (inserts_issued (trace sb1) = inserts_issued (trace sa1)) as Hissued'.
    { by rewrite Htra, Htrb, !inserts_issued_query, Hissued. }
    destruct ra as [[]|e]; [by apply IH|done].
Qed.

Lemma for_each_batches_same expander service_url size table urls value_sets :
  valid_arguments expander service_url →
  Forall2 (expands_to expander service_url) urls value_sets →
  ∀ batch sa sb,
    same_warehouse sa sb → inserts_issued (trace sb) = inserts_issued (trace sa) →
    let ra := for_each
                (batches size table (genexpr (expansion_call expander service_url) urls)
                   batch) run_query sa in
    let rb := for_each (batches size table (iter value_sets) batch) run_query sb in
    rb.1 = ra.1 ∧ same_warehouse ra.2 rb.2 ∧
    inserts_issued (trace rb.2) = inserts_issued (trace ra.2).
Proof.
  intros valid Hexp. induction Hexp as [|url value_set urls value_sets Hurl _ IH];
    intros batch sa sb Hsame Hissued.
  - cbn [genexpr iter batches]. destruct batch as [|row batch]; [done|].
    cbn [for_each].
    set (q := {| into := table; staged := row :: batch |}).
    destruct (run_query_same q sa sb Hsame) as (Hr & Hsame').
    destruct (run_query_trace q sa) as (_ & _ & Htra).
    destruct (run_query_trace q sb) as (_ & _ & Htrb).
    cbv beta in Hr, Hsame', Htra, Htrb |- *.
    destruct (bind (query q) _ sa) as [ra sa1]. destruct (bind (query q) _ sb) as [rb sb1].
    cbn [fst snd] in *. subst rb.
    assert (inserts_issued (trace sb1) = inserts_issued (trace sa1)) as Hissued'.
    { by rewrite Htra, Htrb, !inserts_issued_query, Hissued. }
    by destruct ra as [[]|e].
  - rewrite for_each_batches_cons. cbn [iter batches].
    destruct (expansion_call_spec expander service_url url sa valid)
      as (Hthis & Htab & Hserved & Hout & Htr).
    pose proof (expansion_call_answer expander service_url url sa valid) as Hanswer.
    unfold expands_to in Hurl. rewrite Hurl in Hanswer.
    destruct (expansion_call expander service_url url sa) as [ra sa1].
    cbn [fst snd] in *. injection Hanswer as <-.
    apply for_each_fill_same; [exact IH| |].
    + destruct Hsame as (? & ? & ? & ?). unfold same_warehouse.
      repeat split; congruence.
    + rewrite Htr, inserts_issued_app, Hissued.
      destruct service_url; cbn; by rewrite app_nil_r.
Qed.

Lemma expansion_in_step_with_list_run urls value_sets expander service_url batch_size st :
  valid_arguments expander service_url →
  Forall2 (expands_to expander service_url) urls value_sets →
  let r := materialize_value_set_expansion urls expander service_url batch_size st in
  let r' := materialize_value_sets (iter value_sets) batch_size st in
  r'.1 = r.1 ∧ same_warehouse r.2 r'.2 ∧
  inserts_issued (trace r'.2) = inserts_issued (trace r.2).
Proof.
  intros valid Hexp r r'. subst r r'. rewrite valid_arguments_dispatch by done.
  rewrite !materialize_value_sets_unfold.
  destruct (_create_valueset_codes_table_if_not_exists st) as [[bq_table|e] st1];
    [|done].
  unfold valueset_codes_insert_statement_for. case_decide; [|done].
  by apply for_each_batches_same.
Qed.

(** X7. [materialize_value_set_expansion] is [materialize_value_sets]
    over what the urls expand to: when the expander answers every url
    with a value set, both give the same outcome, leave the same
    warehouse and issue the same statements. *)
Theorem expansion_materializes_the_expanded_value_sets
    (urls : list string) (value_sets : list ValueSet) (expander : Expander)
    (terminology_service_url : option string) (batch_size : Z) (st : State) :
  valid_arguments expander terminology_service_url →
  Forall2 (expands_to expander terminology_service_url) urls value_sets →
  let r := materialize_value_set_expansion urls expander terminology_service_url
             batch_size st in
  let r' := materialize_value_sets (iter value_sets) batch_size st in
  r.1 = r'.1 ∧ tables r.2 = tables r'.2 ∧
  inserts_issued (since st r.2) = inserts_issued (since st r'.2).
Proof.
  intros valid Hexp r r'.
  destruct (materialize_expansion_evolves (fun _ => True) ltac:(done) ltac:(done)
              ltac:(done) expander terminology_service_url valid ltac:(done)
              urls batch_size st) as (_ & _ & events & Hev & _).
  destruct (materialize_list_evolves (fun _ => True) ltac:(done) ltac:(done) ltac:(done)
              value_sets batch_size st) as (_ & _ & events' & Hev' & _).
  fold r in Hev. fold r' in Hev'.
  rewrite (since_app _ _ _ Hev), (since_app _ _ _ Hev').
  destruct (expansion_in_step_with_list_run urls value_sets expander
              terminology_service_url batch_size st valid Hexp)
    as (Hr & (_ & Htab & _) & Hissued).
  fold r in Hr, Htab, Hissued. fold r' in Hr, Htab, Hissued.
  split; [done|]. split; [done|].
  rewrite Hev, Hev', !inserts_issued_app in Hissued.
  by apply app_inv_head in Hissued.
Qed.

Lemma expansion_materializes_the_expanded_value_sets_witness :
  tables (materialize_value_set_expansion ["u1"; "u2"] sample_resolver None 3
            empty_warehouse).2
  = tables (materialize_value_sets
              (iter [ {| uri := "u1"; version := None; codes := [("s", "1"); ("s", "2")] |};
                      {| uri := "u2"; version := None; codes := [("s", "1"); ("s", "2")] |} ])
              3 empty_warehouse).2.
Proof.
  apply (expansion_materializes_the_expanded_value_sets ["u1"; "u2"] _ sample_resolver
           None 3 empty_warehouse).
  - by intros [].
  - repeat constructor.
Defined.

(** ** An expansion that fails *)

Lemma complete_app size rows1 rows2 : ∀ batch,
  complete size (rows1 ++ rows2) batch
  = ((complete size rows1 batch).1
       ++ (complete size rows2 (complete size rows1 batch).2).1,
     (complete size rows2 (complete size rows1 batch).2).2).
Proof.
  induction rows1 as [|row rows1 IH]; intros batch; cbn [app complete fst snd].
  - by destruct (complete size rows2 batch).
  - cbv zeta. case_decide; [apply IH|]. cbn [fst snd]. by rewrite IH.
Qed.

Lemma chunks_complete size rows : ∀ batch,
  length batch < size →
  filter (fun b => length b = size) (chunks size rows batch)
  = (complete size rows batch).1.
Proof.
  induction rows as [|row rows IH]; intros batch Hlen; cbn [chunks complete].
  - destruct batch; [done|]. rewrite filter_cons_False by lia. done.
  - cbv zeta. case_decide as Hlt; [by apply IH|]. cbn [fst].
    rewrite length_app in Hlt. cbn [length] in Hlt.
    rewrite filter_cons_True by (rewrite length_app; cbn [length]; lia).
    f_equal. apply IH. simpl. lia.
Qed.

Lemma commit_app rows bs1 bs2 : commit rows (bs1 ++ bs2) = commit (commit rows bs1) bs2.
Proof. apply foldl_app. Qed.

(** On a warehouse that serves every request, filling batches from the
    rows of a value set commits the batches that get full and goes on
    with the rows left. *)
Lemma for_each_fill_served size table next rows : ∀ batch st stored,
  (∀ n, outage st n = false) →
  tables st !! table_name table = Some stored →
  ∃ st',
    for_each (fill size table rows batch next) run_query st
    = for_each (next (complete size rows batch).2) run_query st' ∧
    this st' = this st ∧ outage st' = outage st ∧
    tables st'
    = <[table_name table :=
          with_rows stored (commit (st_rows stored) (complete size rows batch).1)]>
        (tables st) ∧
    expansions (trace st') = expansions (trace st).
Proof.
  induction rows as [|row rows IH]; intros batch st stored Hserved Hstored;
    cbn [fill complete].
  - exists st. cbn [fst snd commit foldl]. rewrite with_rows_id, insert_id by done. done.
  - cbv zeta. case_decide; [by apply IH|]. cbn [for_each fst snd].
    set (q := {| into := table; staged := batch ++ [row] |}).
    destruct (run_query_ok q st stored Hstored (Hserved _))
      as (st1 & Hrun & Hthis & Htab & _ & Hout & Htr).
    cbv beta in Hrun |- *. rewrite Hrun.
    destruct (IH [] st1 (with_rows stored
                           (st_rows stored ++ new_rows (st_rows stored) (batch ++ [row]))))
      as (st' & Heq & Hthis' & Hout' & Htab' & Hexp').
    { intros n. by rewrite Hout. }
    { cbn [q into] in Htab. by rewrite Htab, lookup_insert_eq. }
    exists st'. rewrite Heq. split; [done|]. split; [congruence|]. split; [congruence|].
    split.
    + rewrite Htab', Htab. cbn [q into staged with_rows st_rows].
      by rewrite insert_insert_eq.
    + rewrite Hexp', Htr, expansions_app. cbn. by rewrite app_nil_r.
Qed.

Lemma for_each_batches_failing expander service_url size table value_sets url post e :
  valid_arguments expander service_url →
  answer expander (expansion_event service_url url) = Some (Raise e) →
  ∀ pre, Forall2 (expands_to expander service_url) pre value_sets →
  ∀ batch st stored,
    (∀ n, outage st n = false) →
    tables st !! table_name table = Some stored →
    let r := for_each
               (batches size table
                  (genexpr (expansion_call expander service_url) (pre ++ url :: post))
                  batch) run_query st in
    r.1 = Raise e ∧ this r.2 = this st ∧
    tables r.2
    = <[table_name table :=
          with_rows stored
            (commit (st_rows stored) (complete size (all_rows value_sets) batch).1)]>
        (tables st) ∧
    expansions (trace r.2)
    = expansions (trace st) ++ map (expansion_event service_url) (pre ++ [url]).
Proof.
  intros valid Hfail pre Hexp.
  induction Hexp as [|url' value_set pre value_sets Hurl _ IH];
    intros batch st stored Hserved Hstored; cbn [app]; rewrite for_each_batches_cons.
  - destruct (expansion_call_spec expander service_url url st valid)
      as (Hthis & Htab & _ & _ & Htr).
    pose proof (expansion_call_answer expander service_url url st valid) as Hanswer.
    rewrite Hfail in Hanswer.
    destruct (expansion_call expander service_url url st) as [ra st1].
    cbn [fst snd] in *. injection Hanswer as <-. cbn [fst snd].
    split; [done|]. split; [done|]. split.
    + cbn. by rewrite Htab, with_rows_id, insert_id.
    + rewrite Htr, expansions_app. f_equal. by destruct service_url.
  - destruct (expansion_call_spec expander service_url url' st valid)
      as (Hthis & Htab & _ & Hout & Htr).
    pose proof (expansion_call_answer expander service_url url' st valid) as Hanswer.
    unfold expands_to in Hurl. rewrite Hurl in Hanswer.
    destruct (expansion_call expander service_url url' st) as [ra st1].
    cbn [fst snd] in *. injection Hanswer as <-.
    destruct (for_each_fill_served size table
                (batches size table
                   (genexpr (expansion_call expander service_url) (pre ++ url :: post)))
                (code_rows value_set) batch st1 stored)
      as (st' & Heq & Hthis' & Hout' & Htab' & Hexp').
    { intros n. by rewrite Hout. }
    { by rewrite Htab. }
    rewrite Heq.
    destruct (IH (complete size (code_rows value_set) batch).2 st'
                (with_rows stored
                   (commit (st_rows stored) (complete size (code_rows value_set) batch).1)))
      as (Hr & Hthis2 & Htab2 & Hexp2).
    { intros n. by rewrite Hout', Hout. }
    { by rewrite Htab', lookup_insert_eq. }
    split; [done|]. split; [congruence|]. split.
    + rewrite Htab2, Htab', Htab, insert_insert_eq.
      unfold all_rows. cbn [map concat]. fold (all_rows value_sets).
      rewrite complete_app. cbn [fst with_rows st_rows]. by rewrite commit_app.
    + rewrite Hexp2, Hexp', Htr, expansions_app. cbn [map].
      rewrite <- app_assoc. f_equal. by destruct service_url.
Qed.

(** X8. On a warehouse that serves every request, when the expander
    answers the first urls with value sets and raises on the next one,
    the run raises that error; the urls after it are never expanded; the
    table holds what it held plus what the batches filled to
    [batch_size] from the value sets expanded so far committed: the rows
    left over in a batch that was not full are not inserted. *)
Theorem failed_expansion_stops_the_run
    (pre post : list string) (url : string) (value_sets : list ValueSet) (e : Error)
    (expander : Expander) (terminology_service_url : option string)
    (batch_size : Z) (st : State) :
  valid_arguments expander terminology_service_url →
  (0 < batch_size)%Z →
  (∀ n, outage st n = false) →
  Forall2 (expands_to expander terminology_service_url) pre value_sets →
  answer expander (expansion_event terminology_service_url url) = Some (Raise e) →
  let r := materialize_value_set_expansion (pre ++ url :: post) expander
             terminology_service_url batch_size st in
  r.1 = Raise e ∧
  expansions (since st r.2)
  = map (expansion_event terminology_service_url) (pre ++ [url]) ∧
  table_rows r.2
  = commit (table_rows st)
      (filter (fun b => length b = Z.to_nat batch_size)
         (batches_of batch_size value_sets)).
Proof.
  intros valid HB Hserved Hexp Hfail r.
  destruct (materialize_expansion_evolves (fun _ => True) ltac:(done) ltac:(done)
              ltac:(done) expander terminology_service_url valid ltac:(done)
              (pre ++ url :: post) batch_size st) as (_ & _ & events & Hev & _).
  fold r in Hev. rewrite (since_app _ _ _ Hev).
  assert (r.1 = Raise e ∧ this r.2 = this st ∧
          tables r.2
          = <[target st :=
                with_rows (provisioned st)
                  (commit (st_rows (provisioned st))
                     (complete (Z.to_nat batch_size) (all_rows value_sets) []).1)]>
              (tables st) ∧
          expansions (trace r.2)
          = expansions (trace st)
              ++ map (expansion_event terminology_service_url) (pre ++ [url]))
    as (Hr & Hthis & Htab & Hexps).
  { subst r. rewrite valid_arguments_dispatch, materialize_value_sets_unfold by done.
    pose proof (provision_spec st) as Hp. cbv zeta in Hp. rewrite Hserved in Hp.
    destruct (_create_valueset_codes_table_if_not_exists st) as [[bq_table|e'] st1];
      simpl in Hp; destruct Hp as (Hthis & Hout & _ & Htrace & Hr & Htab); [|done].
    injection Hr as ->. unfold _bq_table_to_sqlalchemy_table. cbn [reference schema].
    change {| table_name := _; columns := _ |} with (clause st).
    unfold valueset_codes_insert_statement_for. rewrite decide_True by done.
    destruct (for_each_batches_failing expander terminology_service_url
                (Z.to_nat batch_size) (clause st) value_sets url post e valid Hfail
                pre Hexp [] st1 (provisioned st))
      as (Hr & Hthis' & Htab' & Hexps).
    { intros n. by rewrite Hout. }
    { by rewrite Htab, lookup_insert_eq. }
    split; [done|]. split; [congruence|]. split.
    - rewrite Htab', Htab. cbn [clause table_name]. by rewrite insert_insert_eq.
    - rewrite Hexps, Htrace, expansions_app. cbn. by rewrite app_nil_r. }
  split; [done|]. split.
  - rewrite Hev, expansions_app in Hexps. apply app_inv_head in Hexps.
    by rewrite <- Hexps.
  - unfold table_rows at 1, target. rewrite Hthis. fold (target st).
    rewrite (rows_at_insert _ _ _ _ Htab). cbn [with_rows st_rows].
    rewrite provisioned_rows. f_equal.
    unfold batches_of. rewrite decide_True by done.
    rewrite chunks_complete by (simpl; lia). done.
Qed.

Lemma failed_expansion_stops_the_run_witness :
  let r := materialize_value_set_expansion ["u1"; "u2"; "missing"; "u3"] sample_resolver
             None 3 empty_warehouse in
  r.1 = Raise (ExpansionError "missing") ∧
  map code (table_rows r.2) = ["1"; "2"; "1"].
Proof.
  destruct (failed_expansion_stops_the_run ["u1"; "u2"] ["u3"] "missing"
              [ {| uri := "u1"; version := None; codes := [("s", "1"); ("s", "2")] |};
                {| uri := "u2"; version := None; codes := [("s", "1"); ("s", "2")] |} ]
              (ExpansionError "missing") sample_resolver None 3 empty_warehouse)
    as (Hr & _ & Hrows).
  - by intros [].
  - lia.
  - reflexivity.
  - repeat constructor.
  - reflexivity.
  - cbn [app] in Hr, Hrows. split; [exact Hr|]. rewrite Hrows. reflexivity.
Defined.

(** ** An expansion run that returns *)

Lemma returning_loop_expanded expander service_url size table urls :
  valid_arguments expander service_url →
  ∀ batch st,
    (for_each
       (batches size table (genexpr (expansion_call expander service_url) urls) batch)
       run_query st).1 = Ok tt →
    ∃ value_sets, Forall2 (expands_to expander service_url) urls value_sets.
Proof.
  intros valid. induction urls as [|url urls IH]; intros batch st Hok.
  - exists []. constructor.
  - rewrite for_each_batches_cons in Hok.
    pose proof (expansion_call_answer expander service_url url st valid) as Hanswer.
    destruct (expansion_call expander service_url url st) as [[value_set|e] st1];
      [|done].
    destruct (for_each_fill_on (fun _ _ => True) ltac:(done) ltac:(done) size table
                ltac:(done)
                (batches size table (genexpr (expansion_call expander service_url) urls))
                (code_rows value_set) batch st1)
      as [(e & He & _)|(batch' & st' & _ & Heq)].
    + rewrite He in Hok. done.
    + rewrite Heq in Hok. destruct (IH batch' st' Hok) as (value_sets & Hall).
      exists (value_set :: value_sets). by constructor.
Qed.

(** X9. When a run of [materialize_value_set_expansion] with a positive
    batch size returns, the expander has answered every url with a
    value set, and the table holds the rows it held and the rows of all
    these value sets, and no other. *)
Theorem returning_expansion_holds_every_row
    (urls : list string) (expander : Expander) (terminology_service_url : option string)
    (batch_size : Z) (st : State) :
  valid_arguments expander terminology_service_url →
  (0 < batch_size)%Z →
  (materialize_value_set_expansion urls expander terminology_service_url
     batch_size st).1 = Ok tt →
  ∃ value_sets,
    Forall2 (expands_to expander terminology_service_url) urls value_sets ∧
    ∀ row,
      row ∈ table_rows (materialize_value_set_expansion urls expander
                          terminology_service_url batch_size st).2
      ↔ row ∈ table_rows st ∨ row ∈ all_rows value_sets.
Proof.
  intros valid HB Hok.
  assert (∃ value_sets,
            Forall2 (expands_to expander terminology_service_url) urls value_sets)
    as (value_sets & Hexp).
  { revert Hok. rewrite valid_arguments_dispatch, materialize_value_sets_unfold by done.
    destruct (_create_valueset_codes_table_if_not_exists st) as [[bq_table|e] st1];
      [|done].
    unfold valueset_codes_insert_statement_for. rewrite decide_True by done.
    apply returning_loop_expanded, valid. }
  exists value_sets. split; [done|]. intros row.
  destruct (expansion_in_step_with_list_run urls value_sets expander
              terminology_service_url batch_size st valid Hexp)
    as (Hr & (Hthis & Htab & _) & _).
  rewrite Hok in Hr.
  rewrite <- (rows_after_a_returning_run value_sets batch_size st row HB Hr).
  unfold table_rows, rows_at, target. by rewrite Hthis, Htab.
Qed.

Lemma returning_expansion_holds_every_row_witness :
  ∃ value_sets,
    Forall2 (expands_to sample_resolver None) ["u1"; "u2"] value_sets ∧
    ∀ row,
      row ∈ table_rows (materialize_value_set_expansion ["u1"; "u2"] sample_resolver
                          None 3 empty_warehouse).2
      ↔ row ∈ table_rows empty_warehouse ∨ row ∈ all_rows value_sets.
Proof.
  apply (returning_expansion_holds_every_row ["u1"; "u2"] sample_resolver None 3
           empty_warehouse).
  - by intros [].
  - lia.
  - reflexivity.
Defined.
